(** * The UNC course-catalog scraper (data/scraper/scrape_courses.py)

    A shallow embedding of the scraper's parsing pipeline: text
    normalisation, the two regular expressions of [parse_course_block],
    [extract_geneds], [scrape_department] and the aggregation loop of
    [main], followed by the properties of these functions.

    Python strings are sequences of Unicode code points; a code point is a
    number of type [N] and a string is a [list N].  Exceptions are explicit:
    a computation that can raise returns a [res]. *)

From Stdlib Require Import String Ascii List NArith ZArith Bool Arith Lia.
From Stdlib Require Import DecimalString.
Import ListNotations.
Open Scope N_scope.

(** ** Strings *)

Definition str := list N.

(** A string literal of the source, as its code points. *)
Definition lit (s : string) : str := map N_of_ascii (list_ascii_of_string s).
Arguments lit s%_string.

(** A character literal of the source. *)
Definition ch (a : ascii) : N := N_of_ascii a.
Arguments ch a%_char.

Definition str_eqb (a b : str) : bool :=
  if list_eq_dec N.eq_dec a b then true else false.

(** ** Exceptions *)

Inductive exn :=
| ValueError
| IndexError
| AttributeError
| RequestException.

Inductive res (A : Type) :=
| Ret (a : A)
| Raise (e : exn).
Arguments Ret {A} a.
Arguments Raise {A} e.

Definition bind {A B : Type} (m : res A) (f : A -> res B) : res B :=
  match m with
  | Ret a => f a
  | Raise e => Raise e
  end.

Notation "x <- m ;; k" := (bind m (fun x => k))
  (at level 61, m at next level, right associativity).

(** [try: ... except Exception: handler] *)
Definition try_except {A : Type} (m : res A) (handler : exn -> A) : A :=
  match m with
  | Ret a => a
  | Raise e => handler e
  end.

(** ** Character predicates of the Python runtime *)

(** [str.isspace] on one code point, which is also what [\s] matches in a
    [str] pattern and what [str.strip()] removes. *)
Definition is_space (c : N) : bool :=
  ((9 <=? c) && (c <=? 13)) || ((28 <=? c) && (c <=? 32))
  || (c =? 133) || (c =? 160) || (c =? 5760)
  || ((8192 <=? c) && (c <=? 8202))
  || (c =? 8232) || (c =? 8233) || (c =? 8239) || (c =? 8287) || (c =? 12288).

(** [[A-Z]] *)
Definition is_upper_AZ (c : N) : bool := (65 <=? c) && (c <=? 90).

(** [.] without DOTALL *)
Definition not_newline (c : N) : bool := negb (c =? 10).

Definition ascii_lower (c : N) : N := if is_upper_AZ c then c + 32 else c.

(** The lower-case key the regex engine compares under IGNORECASE, on the
    code points whose key is an ASCII letter: the ASCII letters themselves,
    U+0130 (key i) and U+212A (key k).  Every other code point has a key
    outside ASCII and is left as it is here; the patterns of this program
    hold ASCII literals only. *)
Definition sre_lower (x : N) : N :=
  if x =? 304 then 105 else if x =? 8490 then 107 else ascii_lower x.

(** The extra keys the engine accepts for a literal: dotless i for i and
    long s for s. *)
Definition sre_fixes (lo : N) : list N :=
  if lo =? 105 then [305] else if lo =? 115 then [383] else [].

(** Does input code point [x] match the pattern literal [c] under
    IGNORECASE? *)
Definition lit_ignorecase (c x : N) : bool :=
  let lo := ascii_lower c in
  let y := sre_lower x in
  (y =? lo) || existsb (N.eqb y) (sre_fixes lo).

(** ** A backtracking matcher for the regular expressions of the source *)

Inductive greed := Greedy | Lazy.

(** The constructs the two patterns use.  Every repetition of the source
    ranges over a set of single characters. *)
Inductive regex :=
| Eps                                          (* the empty pattern *)
| Lit (c : N)                                  (* a literal character *)
| ILit (c : N)                                 (* a literal under IGNORECASE *)
| Class (p : N -> bool)                        (* one character of a set *)
| Eos                                          (* $ *)
| Seq (r1 r2 : regex)
| Alt (r1 r2 : regex)                          (* r1|r2 *)
| Opt (r : regex)                              (* r? *)
| Rep (g : greed) (min : nat) (p : N -> bool)  (* p*, p+, p+? *)
| Group (n : nat) (r : regex).                 (* the n-th capturing group *)

(** Captured groups, the most recently closed first. *)
Definition caps := list (nat * str).

Fixpoint group (n : nat) (c : caps) : option str :=
  match c with
  | [] => None
  | (m, w) :: c' => if Nat.eqb m n then Some w else group n c'
  end.

(** [$] matches at the end of the string and before a final newline. *)
Definition at_end (s : str) : bool :=
  match s with
  | [] => true
  | [c] => c =? 10
  | _ => false
  end.

Section Matcher.
Context {A : Type}.

(** Greedy repetition: take as many characters as the set allows, then
    give them back one at a time until the rest of the pattern matches. *)
Fixpoint rep_greedy (p : N -> bool) (min : nat) (s : str)
         (k : str -> option A) : option A :=
  let stop := match min with O => k s | S _ => None end in
  match s with
  | x :: s' =>
      if p x then
        match rep_greedy p (Nat.pred min) s' k with
        | Some r => Some r
        | None => stop
        end
      else stop
  | [] => stop
  end.

(** Lazy repetition: try the rest of the pattern first, and take one more
    character only when it fails. *)
Fixpoint rep_lazy (p : N -> bool) (min : nat) (s : str)
         (k : str -> option A) : option A :=
  let stop := match min with O => k s | S _ => None end in
  match stop with
  | Some r => Some r
  | None =>
      match s with
      | x :: s' => if p x then rep_lazy p (Nat.pred min) s' k else None
      | [] => None
      end
  end.
End Matcher.

(** [rmatch r s c k]: match [r] at the head of [s] with captures [c] and
    continue with [k] on the rest; alternatives are tried in the engine's
    order and the first complete match is returned. *)
Fixpoint rmatch (r : regex) (s : str) (c : caps)
         (k : str -> caps -> option (str * caps)) : option (str * caps) :=
  match r with
  | Eps => k s c
  | Lit a =>
      match s with
      | x :: s' => if x =? a then k s' c else None
      | [] => None
      end
  | ILit a =>
      match s with
      | x :: s' => if lit_ignorecase a x then k s' c else None
      | [] => None
      end
  | Class p =>
      match s with
      | x :: s' => if p x then k s' c else None
      | [] => None
      end
  | Eos => if at_end s then k s c else None
  | Seq r1 r2 => rmatch r1 s c (fun s1 c1 => rmatch r2 s1 c1 k)
  | Alt r1 r2 =>
      match rmatch r1 s c k with
      | Some x => Some x
      | None => rmatch r2 s c k
      end
  | Opt r1 =>
      match rmatch r1 s c k with
      | Some x => Some x
      | None => k s c
      end
  | Rep Greedy min p => rep_greedy p min s (fun s' => k s' c)
  | Rep Lazy min p => rep_lazy p min s (fun s' => k s' c)
  | Group n r1 =>
      rmatch r1 s c
        (fun s' c' => k s' ((n, firstn (length s - length s') s) :: c'))
  end.

(** [re.match]: anchored at the start; the result is the unmatched rest and
    the groups. *)
Definition re_match (r : regex) (s : str) : option (str * caps) :=
  rmatch r s [] (fun s' c' => Some (s', c')).

(** [re.search]: the first position, from the left, where the pattern
    matches. *)
Fixpoint re_search (r : regex) (s : str) : option (str * caps) :=
  match re_match r s with
  | Some x => Some x
  | None =>
      match s with
      | [] => None
      | _ :: s' => re_search r s'
      end
  end.

(** [re.sub(r, repl, s)] with a constant replacement: the matches are
    replaced from left to right; after an empty match one character is
    copied.  The scan visits each position once, so [length s + 1] steps
    are enough. *)
Fixpoint re_sub_steps (steps : nat) (r : regex) (repl s : str) : str :=
  match steps with
  | O => s
  | S n =>
      match re_match r s with
      | Some (rest, _) =>
          if (length rest <? length s)%nat then repl ++ re_sub_steps n r repl rest
          else match s with
               | [] => repl
               | x :: s' => repl ++ x :: re_sub_steps n r repl s'
               end
      | None =>
          match s with
          | [] => []
          | x :: s' => x :: re_sub_steps n r repl s'
          end
      end
  end.

Definition re_sub (r : regex) (repl s : str) : str :=
  re_sub_steps (S (length s)) r repl s.

(** The literal characters of [s], each built by [mk] ([Lit], or [ILit]
    under IGNORECASE), followed by [r]. *)
Fixpoint lits (mk : N -> regex) (s : str) (r : regex) : regex :=
  match s with
  | [] => r
  | c :: s' => Seq (mk c) (lits mk s' r)
  end.

Infix ">>" := Seq (at level 62, right associativity).

(** ** String methods of the runtime *)

(** [s.replace(old, new)] for one-character [old] and [new]. *)
Definition replace (old new : N) (s : str) : str :=
  map (fun c => if c =? old then new else c) s.

Fixpoint lstrip (s : str) : str :=
  match s with
  | [] => []
  | x :: s' => if is_space x then lstrip s' else s
  end.

Fixpoint rstrip (s : str) : str :=
  match s with
  | [] => []
  | x :: s' =>
      match rstrip s' with
      | [] => if is_space x then [] else [x]
      | r => x :: r
      end
  end.

(** [s.strip()] *)
Definition strip (s : str) : str := lstrip (rstrip s).

Fixpoint starts_with (p s : str) : bool :=
  match p, s with
  | [], _ => true
  | a :: p', b :: s' => (a =? b) && starts_with p' s'
  | _ :: _, [] => false
  end.

(** [p in s] *)
Fixpoint contains (p s : str) : bool :=
  starts_with p s ||
  match s with
  | [] => false
  | _ :: s' => contains p s'
  end.

(** [s.split(sep)] for a one-character separator. *)
Fixpoint split (sep : N) (s : str) : list str :=
  match s with
  | [] => [[]]
  | x :: s' =>
      if x =? sep then [] :: split sep s'
      else match split sep s' with
           | w :: ws => (x :: w) :: ws
           | [] => [[x]]
           end
  end.

(** [l[i]] *)
Definition index {A : Type} (l : list A) (i : nat) : res A :=
  match nth_error l i with
  | Some a => Ret a
  | None => Raise IndexError
  end.

(** ** Module constants *)

Definition BASE_URL : str := lit "https://catalog.unc.edu".
Definition COURSES_URL : str := BASE_URL ++ lit "/courses/".

Definition ARTS_SCIENCES_DEPTS : list str :=
  map lit
    ["aaad"; "amst"; "anth"; "arab"; "arch"; "arth"; "arts"; "asia"; "astr";
     "biol"; "chem"; "chin"; "clas"; "clar"; "comm"; "cmpl"; "comp"; "data";
     "dram"; "econ"; "engl"; "enec"; "exss"; "folk"; "fren"; "geog"; "geol";
     "germ"; "glbl"; "grek"; "hebr"; "hist"; "ital"; "japn"; "jwst"; "kor";
     "latn"; "lfit"; "ling"; "ltam"; "math"; "musc"; "phil"; "phys"; "poli";
     "port"; "psyc"; "pwad"; "reli"; "roml"; "russ"; "soci"; "span"; "stor";
     "wgst"]%string.

Definition GENED_PATTERNS : list str :=
  map lit
    ["FY-LAUNCH"; "FY-SEMINAR"; "FY-WRITING"; "FY-DATA"; "FY-THRIVE";
     "FC-AESTH"; "FC-CREATE"; "FC-PAST"; "FC-VALUES"; "FC-GLOBAL";
     "FC-NATSCI"; "FC-POWER"; "FC-QUANT"; "FC-KNOWING"; "FC-LAB";
     "GLBL-LANG"; "RESEARCH"; "HIGH-IMPACT"; "COMMBEYOND"; "INTERDISC";
     "LIFE-FIT"; "CAMPUS-LIFE"; "AMER-DEM"]%string.

(** The interpreter's default limit on the number of digits [int] converts
    from a string ([sys.int_info.default_max_str_digits]; the script asks
    for Python 3.11 or later and does not change it). *)
Definition int_max_str_digits : nat := 4300.

(** A course as [parse_course_block] returns it. *)
Record course := {
  key : str;
  prefix : str;
  number : str;
  title : str;
  credits : Z;
  description : str;
  geneds : list str
}.

(** What [main] stores under the key, after [course.pop("key")]. *)
Record entry := {
  e_prefix : str;
  e_number : str;
  e_title : str;
  e_credits : Z;
  e_description : str;
  e_geneds : list str
}.

Definition pop_key (c : course) : str * entry :=
  (key c,
   {| e_prefix := prefix c; e_number := number c; e_title := title c;
      e_credits := credits c; e_description := description c;
      e_geneds := geneds c |}).

(** ** A dict, in insertion order *)

Definition dict := list (str * entry).

(** [d[k] = v]: a present key keeps its place and takes the new value, a
    new key goes last. *)
Fixpoint dict_set (k : str) (v : entry) (d : dict) : dict :=
  match d with
  | [] => [(k, v)]
  | (k', v') :: d' =>
      if str_eqb k' k then (k', v) :: d' else (k', v') :: dict_set k v d'
  end.

Fixpoint dict_get (k : str) (d : dict) : option entry :=
  match d with
  | [] => None
  | (k', v') :: d' => if str_eqb k' k then Some v' else dict_get k d'
  end.

Definition dict_keys (d : dict) : list str := map fst d.

(** ** [json.dump(obj, f, indent=2)] *)

Definition join (sep : str) (l : list str) : str :=
  match l with
  | [] => []
  | w :: ws => w ++ flat_map (fun x => sep ++ x) ws
  end.

Definition hex_digit (n : N) : N := if n <? 10 then 48 + n else 87 + n.

(** [\uXXXX] *)
Definition u_escape (n : N) : str :=
  [92; 117; hex_digit (n / 4096 mod 16); hex_digit (n / 256 mod 16);
   hex_digit (n / 16 mod 16); hex_digit (n mod 16)].

(** One character of a string under [ensure_ascii]. *)
Definition json_char (c : N) : str :=
  if c =? 34 then [92; 34]
  else if c =? 92 then [92; 92]
  else if c =? 10 then [92; 110]
  else if c =? 13 then [92; 114]
  else if c =? 9 then [92; 116]
  else if c =? 12 then [92; 102]
  else if c =? 8 then [92; 98]
  else if (32 <=? c) && (c <=? 126) then [c]
  else if c <? 65536 then u_escape c
  else let v := c - 65536 in
       u_escape (55296 + v / 1024) ++ u_escape (56320 + v mod 1024).

Definition json_string (s : str) : str := [34] ++ flat_map json_char s ++ [34].

Definition json_int (z : Z) : str := lit (NilZero.string_of_int (Z.to_int z)).

Definition newline_indent (n : nat) : str := 10 :: repeat 32 n.

Definition json_array (level : nat) (items : list str) : str :=
  match items with
  | [] => lit "[]"
  | _ :: _ =>
      lit "[" ++ newline_indent (level + 2) ++
      join (lit "," ++ newline_indent (level + 2)) items ++
      newline_indent level ++ lit "]"
  end.

Definition json_object (level : nat) (members : list (str * str)) : str :=
  match members with
  | [] => lit "{}"
  | _ :: _ =>
      lit "{" ++ newline_indent (level + 2) ++
      join (lit "," ++ newline_indent (level + 2))
        (map (fun m => json_string (fst m) ++ lit ": " ++ snd m) members) ++
      newline_indent level ++ lit "}"
  end.

Definition json_entry (level : nat) (e : entry) : str :=
  json_object level
    [(lit "prefix", json_string (e_prefix e));
     (lit "number", json_string (e_number e));
     (lit "title", json_string (e_title e));
     (lit "credits", json_int (e_credits e));
     (lit "description", json_string (e_description e));
     (lit "geneds", json_array (level + 2) (map json_string (e_geneds e)))].

Definition json_dump (d : dict) : str :=
  json_object 0 (map (fun kv => (fst kv, json_entry 2 (snd kv))) d).

(** ** The scraper *)

Section Scraper.

(** The runtime's Unicode tables outside ASCII: the full upper-case
    mapping of [str.upper], and the value of a decimal digit (category
    Nd), which is what [\d] matches and [int] converts. *)
Variable unicode_upper : N -> list N.
Variable unicode_decimal : N -> option N.

Definition decimal_value (c : N) : option N :=
  if c <? 128 then
    if (48 <=? c) && (c <=? 57) then Some (c - 48) else None
  else unicode_decimal c.

(** [\d] *)
Definition is_decimal (c : N) : bool :=
  match decimal_value c with
  | Some _ => true
  | None => false
  end.

Definition upper_char (c : N) : list N :=
  if c <? 128 then [if (97 <=? c) && (c <=? 122) then c - 32 else c]
  else unicode_upper c.

(** [s.upper()] *)
Definition str_upper (s : str) : str := flat_map upper_char s.

Fixpoint digits_value (acc : Z) (s : str) : option Z :=
  match s with
  | [] => Some acc
  | c :: s' =>
      match decimal_value c with
      | Some d => digits_value (10 * acc + Z.of_N d) s'
      | None => None
      end
  end.

(** [int(s)] on a string of decimal digits.  Anything else raises here;
    the signs, blanks and underscores that [int] also reads do not occur
    in the one string the program converts. *)
Definition py_int (s : str) : res Z :=
  match s with
  | [] => Raise ValueError
  | _ :: _ =>
      if (int_max_str_digits <? length s)%nat then Raise ValueError
      else
        match digits_value 0 s with
        | Some z => Ret z
        | None => Raise ValueError
        end
  end.

Definition extract_geneds (text : str) : list str :=
  fold_left
    (fun geneds pattern =>
       if contains pattern (str_upper text) then geneds ++ [pattern]
       else geneds)
    GENED_PATTERNS [].

(** [\s+] *)
Definition WS_RUN : regex := Rep Greedy 1 is_space.

(** [([A-Z]+)\s+(\d+[A-Z]?)\.\s*(.+?)\.\s*(\d+(?:-\d+)?)\s*Credits?\.] *)
Definition COURSE_RE : regex :=
  Group 1 (Rep Greedy 1 is_upper_AZ) >>
  Rep Greedy 1 is_space >>
  Group 2 (Rep Greedy 1 is_decimal >> Opt (Class is_upper_AZ)) >>
  Lit (ch ".") >>
  Rep Greedy 0 is_space >>
  Group 3 (Rep Lazy 1 not_newline) >>
  Lit (ch ".") >>
  Rep Greedy 0 is_space >>
  Group 4 (Rep Greedy 1 is_decimal >>
           Opt (Lit (ch "-") >> Rep Greedy 1 is_decimal)) >>
  Rep Greedy 0 is_space >>
  lits Lit (lit "Credit") (Opt (Lit (ch "s")) >> Lit (ch ".")).

(** The alternatives of the boundary group, compiled with IGNORECASE:
    [Rules\s*&\s*Requirements], [Grading\s*Status], [Repeat\s*Rules]. *)
Definition RULES_REQUIREMENTS_RE : regex :=
  lits ILit (lit "Rules")
    (Rep Greedy 0 is_space >> ILit (ch "&") >>
     Rep Greedy 0 is_space >> lits ILit (lit "Requirements") Eps).

Definition GRADING_STATUS_RE : regex :=
  lits ILit (lit "Grading")
    (Rep Greedy 0 is_space >> lits ILit (lit "Status") Eps).

Definition REPEAT_RULES_RE : regex :=
  lits ILit (lit "Repeat")
    (Rep Greedy 0 is_space >> lits ILit (lit "Rules") Eps).

(** [(?:Rules\s*&\s*Requirements|Grading\s*Status|Repeat\s*Rules|$)] *)
Definition BOUNDARY_RE : regex :=
  Alt RULES_REQUIREMENTS_RE
 (Alt GRADING_STATUS_RE
 (Alt REPEAT_RULES_RE
      Eos)).

(** [Credits?\.\s*(.+?)(?:...|$)] compiled with IGNORECASE. *)
Definition DESC_RE : regex :=
  lits ILit (lit "Credit")
    (Opt (ILit (ch "s")) >>
     ILit (ch ".") >>
     Rep Greedy 0 is_space >>
     Group 1 (Rep Lazy 1 not_newline) >>
     BOUNDARY_RE).

(** The first three statements of [parse_course_block]'s body, on the
    block's text content ([block.get_text()]). *)
Definition normalize (text : str) : str :=
  let full_text := replace 160 32 text in
  strip (re_sub WS_RUN (lit " ") full_text).

(** [m.group(n)], with what calling a string method on [None] does. *)
Definition group_str (n : nat) (g : caps) : res str :=
  match group n g with
  | Some w => Ret w
  | None => Raise AttributeError
  end.

(** The range handling: ["-" in credits] and [credits.split("-")[1]]. *)
Definition resolve_credits (credits : str) : res str :=
  if contains (lit "-") credits then index (split (ch "-") credits) 1
  else Ret credits.

Definition find_description (full_text : str) : res str :=
  d <- match re_search DESC_RE full_text with
       | Some (_, g) => w <- group_str 1 g ;; Ret (strip w)
       | None => Ret []
       end ;;
  Ret (strip (re_sub WS_RUN (lit " ") d)).

(** The body of [parse_course_block] from the match on. *)
Definition parse_normalized (full_text : str) : res (option course) :=
  match re_match COURSE_RE full_text with
  | None => Ret None
  | Some (_, g) =>
      prefix <- group_str 1 g ;;
      number <- group_str 2 g ;;
      title <- group_str 3 g ;;
      credits <- group_str 4 g ;;
      let title := strip title in
      credits <- resolve_credits credits ;;
      description <- find_description full_text ;;
      let geneds := extract_geneds full_text in
      let course_key := prefix ++ number in
      n <- py_int credits ;;
      Ret (Some {| key := course_key; prefix := prefix; number := number;
                   title := title; credits := n;
                   description := description; geneds := geneds |})
  end.

(** The body of the [try] block. *)
Definition parse_course_block_body (block : str) : res (option course) :=
  parse_normalized (normalize block).

Definition parse_course_block (block : str) : res (option course) :=
  match parse_course_block_body block with
  | Ret r => Ret r
  | Raise _ => Ret None
  end.

(** The page behind a URL, as the program sees it: [get_soup] either
    raises (a transport error, or a failure status through
    [raise_for_status]) or returns the parsed markup, of which the
    program reads the text of each [div] of class [courseblock], in
    document order. *)
Variable get_soup : str -> res (list str).

Fixpoint parse_blocks (course_blocks : list str) : res (list course) :=
  match course_blocks with
  | [] => Ret []
  | block :: rest =>
      course <- parse_course_block block ;;
      courses <- parse_blocks rest ;;
      Ret match course with
          | Some c => c :: courses
          | None => courses
          end
  end.

Definition scrape_department (dept_code : str) : list course :=
  let url := COURSES_URL ++ dept_code ++ lit "/" in
  try_except
    (course_blocks <- get_soup url ;; parse_blocks course_blocks)
    (fun _ => []).

(** The inner loop of [main]. *)
Definition store_courses (courses : list course) (all_courses : dict) : dict :=
  fold_left
    (fun d course => let '(k, e) := pop_key course in dict_set k e d)
    courses all_courses.

(** The loop of [main] over the departments [depts]. *)
Definition scrape_all (depts : list str) (all_courses : dict) : dict :=
  fold_left
    (fun d dept => store_courses (scrape_department dept) d)
    depts all_courses.

(** [main]: what it writes to the output file and to the backup file.
    The progress lines it prints and the pause after each department
    leave no trace in either. *)
Definition main : str * str :=
  let all_courses := scrape_all ARTS_SCIENCES_DEPTS [] in
  (json_dump all_courses, json_dump all_courses).

End Scraper.

(** ** Closed instances

    The tables of a runtime that knows no letter and no digit outside
    ASCII.  The closed examples below run the program on ASCII text, where
    the program never consults the tables. *)

Definition plain_upper : N -> list N := fun c => [c].
Definition plain_decimal : N -> option N := fun _ => None.

(** A block whose credit field has one digit more than [int] converts. *)
Definition long_credits : str := repeat (ch "1") 4301.
Definition long_credits_block : str :=
  lit "MATH 1. T. " ++ long_credits ++ lit " Credits.".

(** A catalog site on which only the pages of two departments answer. *)
Definition example_soup (url : str) : res (list str) :=
  if str_eqb url (lit "https://catalog.unc.edu/courses/comp/") then
    Ret [lit "COMP 110. Introduction to Programming. 3 Credits. An introduction. Gen Ed: FC-QUANT.";
         lit "Courses";
         lit "COMP 393. Practicum. 1-3 Credits."]
  else if str_eqb url (lit "https://catalog.unc.edu/courses/stor/") then
    Ret [lit "STOR 120. Data Science. 4 Credits. Foundations."]
  else Raise RequestException.

(** The same site, with one more page that [main] never asks for. *)
Definition example_soup_more (url : str) : res (list str) :=
  if str_eqb url (lit "https://example.org/") then Ret []
  else example_soup url.

(** The record of the one course on the page of the second department. *)
Definition stor_course : course :=
  {| key := lit "STOR120"; prefix := lit "STOR"; number := lit "120";
     title := lit "Data Science"; credits := 4;
     description := lit "Foundations."; geneds := [] |}.

(** The description of the record a block gives, if it gives one. *)
Definition description_of (block : str) : option str :=
  match parse_course_block plain_upper plain_decimal block with
  | Ret (Some c) => Some (description c)
  | _ => None
  end.

(** The credits of the record a block gives, if it gives one. *)
Definition credits_of (block : str) : option Z :=
  match parse_course_block plain_upper plain_decimal block with
  | Ret (Some c) => Some (credits c)
  | _ => None
  end.

(** The records of the blocks of a page, in the order of the page. *)
Definition block_records (unicode_upper : N -> list N)
           (unicode_decimal : N -> option N) (blocks : list str) : list course :=
  flat_map
    (fun b =>
       match parse_course_block unicode_upper unicode_decimal b with
       | Ret (Some c) => [c]
       | _ => []
       end)
    blocks.

(** The keys of [ks] that are not in [seen], each at its first place. *)
Fixpoint first_occurrences (seen ks : list str) : list str :=
  match ks with
  | [] => []
  | k :: ks' =>
      if existsb (fun k' => str_eqb k' k) seen then first_occurrences seen ks'
      else k :: first_occurrences (seen ++ [k]) ks'
  end.

(** [sum(1 for c in all_courses.values() if c["geneds"])] *)
Definition gened_count (d : dict) : nat :=
  length
    (filter (fun kv => match e_geneds (snd kv) with [] => false | _ :: _ => true end)
       d).

(** The characters [json.dump] writes under [ensure_ascii]: printable
    ASCII and the newline. *)
Definition json_safe (c : N) : bool :=
  ((32 <=? c) && (c <=? 126)) || (c =? 10).

Fixpoint nodupb (l : list str) : bool :=
  match l with
  | [] => true
  | x :: l' => negb (existsb (str_eqb x) l') && nodupb l'
  end.

(** A catalog of one course whose title has an accented letter, a dash
    outside ASCII and a character outside the basic plane. *)
Definition accented_title : str :=
  lit "Caf" ++ [233] ++ lit " " ++ [8212] ++ lit " " ++ [128218].

Definition accented_entry : entry :=
  {| e_prefix := lit "FREN"; e_number := lit "101";
     e_title := accented_title; e_credits := 3;
     e_description := lit "Say " ++ [34] ++ lit "bonjour" ++ [34] ++ lit ".";
     e_geneds := [lit "GLBL-LANG"] |}.

Definition accented_catalog : dict := [(lit "FREN101", accented_entry)].

(** A site on which no page answers. *)
Definition offline_soup (url : str) : res (list str) := Raise RequestException.

(** A block as the catalog has them, with a non-breaking space and a
    line break in it, and the record it gives. *)
Definition example_block : str :=
  lit "  COMP" ++ [160] ++ lit "110L. Programming Lab." ++ [10] ++
  lit "1-3 Credits. Hands-on  practice. Rules & Requirements: none.".

Definition example_course : course :=
  {| key := lit "COMP110L"; prefix := lit "COMP"; number := lit "110L";
     title := lit "Programming Lab"; credits := 3;
     description := lit "Hands-on practice."; geneds := [] |}.

(** ** Specification-level notions *)

(** ** Reading a JSON string back

    The output file is read by a JSON reader, which is no part of this
    program.  The following is the reading of a string of a JSON text
    (RFC 8259, section 7; [json.loads] reads it so): between the quotes, a
    backslash starts an escape, which is one of the two-character escapes
    or [\u] and four hexadecimal digits for a UTF-16 code unit; a raw
    quote or control character is refused; a high surrogate followed by a
    low one stands for one character outside the basic plane. *)

Definition hex_value (c : N) : option N :=
  if (48 <=? c) && (c <=? 57) then Some (c - 48)
  else if (97 <=? c) && (c <=? 102) then Some (c - 87)
  else if (65 <=? c) && (c <=? 70) then Some (c - 55)
  else None.

(** The character a two-character escape stands for. *)
Definition short_escape (x : N) : option N :=
  if x =? 34 then Some 34
  else if x =? 92 then Some 92
  else if x =? 47 then Some 47
  else if x =? 110 then Some 10
  else if x =? 114 then Some 13
  else if x =? 116 then Some 9
  else if x =? 102 then Some 12
  else if x =? 98 then Some 8
  else None.

Definition hex4 (a b c d : N) : option N :=
  match hex_value a, hex_value b, hex_value c, hex_value d with
  | Some a', Some b', Some c', Some d' =>
      Some (4096 * a' + 256 * b' + 16 * c' + d')
  | _, _, _, _ => None
  end.

Definition cons_unit (u : option N) (rest : option str) : option str :=
  match u, rest with
  | Some x, Some r => Some (x :: r)
  | _, _ => None
  end.

(** The code units that the text between the quotes stands for. *)
Fixpoint json_units (s : str) : option str :=
  match s with
  | [] => Some []
  | c :: rest =>
      if c =? 92 then
        match rest with
        | [] => None
        | x :: rest1 =>
            if x =? 117 then
              match rest1 with
              | a :: b :: c' :: d :: rest2 =>
                  cons_unit (hex4 a b c' d) (json_units rest2)
              | _ => None
              end
            else cons_unit (short_escape x) (json_units rest1)
        end
      else if (c =? 34) || (c <? 32) then None
      else cons_unit (Some c) (json_units rest)
  end.

Definition is_high (c : N) : bool := (55296 <=? c) && (c <? 56320).
Definition is_low (c : N) : bool := (56320 <=? c) && (c <? 57344).

Fixpoint pair_surrogates (u : str) : str :=
  match u with
  | [] => []
  | h :: r =>
      match r with
      | l :: r' =>
          if is_high h && is_low l
          then (65536 + (h - 55296) * 1024 + (l - 56320)) :: pair_surrogates r'
          else h :: pair_surrogates r
      | [] => [h]
      end
  end.

(** The string that a quoted JSON string stands for. *)
Definition json_read_string (t : str) : option str :=
  match t with
  | q :: rest =>
      match rev rest with
      | q' :: body =>
          if (q =? 34) && (q' =? 34)
          then option_map pair_surrogates (json_units (rev body))
          else None
      | [] => None
      end
  | [] => None
  end.

(** The UTF-16 code units of a character. *)
Definition utf16 (c : N) : str :=
  if c <? 65536 then [c]
  else [55296 + (c - 65536) / 1024; 56320 + (c - 65536) mod 1024].

(** A Unicode scalar value: a code point that is no surrogate.  (A Python
    string can hold a lone surrogate; decoded page text does not.) *)
Definition is_scalar (c : N) : bool :=
  (c <? 55296) || ((57343 <? c) && (c <? 1114112)).

(** The characters that stand for themselves in a JSON string written
    under [ensure_ascii]: printable ASCII but the quote and the
    backslash. *)
Definition json_plain (c : N) : bool :=
  (32 <=? c) && (c <=? 126) && negb (c =? 34) && negb (c =? 92).

(** The longest prefix of [s] whose characters satisfy [p], and what
    follows it. *)
Fixpoint take_while (p : N -> bool) (s : str) : str :=
  match s with
  | [] => []
  | x :: s' => if p x then x :: take_while p s' else []
  end.

Fixpoint drop_while (p : N -> bool) (s : str) : str :=
  match s with
  | [] => []
  | x :: s' => if p x then drop_while p s' else s
  end.

(** [p] occurs in [s]. *)
Definition occurs_in (p s : str) : Prop := exists a b, s = a ++ p ++ b.

(** The maximal runs of non-whitespace characters of [s], in order
    ([s.split()]). *)
Fixpoint words (s : str) : list str :=
  match s with
  | [] => []
  | x :: s' =>
      if is_space x then words s'
      else match s' with
           | [] => [[x]]
           | y :: _ =>
               if is_space y then [x] :: words s'
               else match words s' with
                    | w :: ws => (x :: w) :: ws
                    | [] => [[x]]
                    end
           end
  end.

(** A word: non-empty and free of whitespace. *)
Definition is_word (w : str) : Prop :=
  w <> [] /\ forallb (fun c => negb (is_space c)) w = true.

(** Normalisation as the specification words it: the words of the text,
    separated by single ordinary spaces. *)
Definition normalize_spec (text : str) : str := join (lit " ") (words text).

(** Whitespace runs collapsed in one pass: [in_run] says that the
    previous character was whitespace. *)
Fixpoint squeeze (in_run : bool) (s : str) : str :=
  match s with
  | [] => []
  | x :: s' =>
      if is_space x then
        if in_run then squeeze true s' else ch " " :: squeeze true s'
      else x :: squeeze false s'
  end.

(** The description, without the matcher.  [skip_ignorecase p s] reads
    the literal [p] at the head of [s], whatever the case, and gives what
    follows it. *)
Fixpoint skip_ignorecase (p s : str) : option str :=
  match p, s with
  | [], _ => Some s
  | a :: p', x :: s' =>
      if lit_ignorecase a x then skip_ignorecase p' s' else None
  | _ :: _, [] => None
  end.

(** What follows ["Credits."] or ["Credit."] at the head of [s]. *)
Definition after_credits_word (s : str) : option str :=
  match skip_ignorecase (lit "Credits.") s with
  | Some r => Some r
  | None => skip_ignorecase (lit "Credit.") s
  end.

(** What follows the two words [a] and [b], with any whitespace or none
    between them, at the head of [s]. *)
Definition after_phrase (a b : str) (s : str) : option str :=
  match skip_ignorecase a s with
  | Some r => skip_ignorecase b (drop_while is_space r)
  | None => None
  end.

(** What follows ["Rules & Requirements"], spaced in any way, at the head
    of [s]. *)
Definition after_rules_requirements (s : str) : option str :=
  match skip_ignorecase (lit "Rules") s with
  | Some r => after_phrase (lit "&") (lit "Requirements") (drop_while is_space r)
  | None => None
  end.

(** Where a boundary found at the head of [s] ends: one of the three
    phrases, or the end of the text. *)
Definition boundary_end (s : str) : option str :=
  match after_rules_requirements s with
  | Some r => Some r
  | None =>
      match after_phrase (lit "Grading") (lit "Status") s with
      | Some r => Some r
      | None =>
          match after_phrase (lit "Repeat") (lit "Rules") s with
          | Some r => Some r
          | None => if at_end s then Some s else None
          end
      end
  end.

Definition boundary_here (s : str) : bool :=
  match boundary_end s with
  | Some _ => true
  | None => false
  end.

(** The text before the first boundary of [t], and the text from it on. *)
Fixpoint until_boundary (t : str) : str :=
  match t with
  | [] => []
  | y :: t' => if boundary_here t then [] else y :: until_boundary t'
  end.

Fixpoint from_boundary (t : str) : str :=
  match t with
  | [] => []
  | y :: t' => if boundary_here t then t else from_boundary t'
  end.

(** The description captured at the head of [s]: after the credits word
    and the whitespace that follows it, one character and then the text up
    to the first boundary. *)
Definition description_here (s : str) : option str :=
  match after_credits_word s with
  | Some t1 =>
      match drop_while is_space t1 with
      | [] => None
      | x :: t => Some (x :: until_boundary t)
      end
  | None => None
  end.

(** The description captured at the first place of [s] that has one. *)
Fixpoint description_raw (s : str) : option str :=
  match description_here s with
  | Some d => Some d
  | None =>
      match s with
      | [] => None
      | _ :: s' => description_raw s'
      end
  end.

(** A text is tidy when it holds no newline and does not end in
    whitespace: the state of a normalised text and of its tails. *)
Definition tidy (s : str) : Prop :=
  forallb not_newline s = true /\ rstrip s = s.

(** The continuation [re_match] ends with. *)
Definition k_final : str -> caps -> option (str * caps) :=
  fun s' c' => Some (s', c').

(** No two neighbours of [s] are both whitespace. *)
Fixpoint single_spaced (s : str) : bool :=
  match s with
  | [] => true
  | x :: s' =>
      match s' with
      | [] => true
      | y :: _ => negb (is_space x && is_space y) && single_spaced s'
      end
  end.

Section Shapes.
Variable unicode_decimal : N -> option N.

(** A course number: digits and at most one upper-case letter after them. *)
Definition number_token (d l : str) : Prop :=
  d <> [] /\ forallb (is_decimal unicode_decimal) d = true /\
  (l = [] \/ exists u, l = [u] /\ is_upper_AZ u = true).

(** The construction rule of a course code: one or more upper-case
    letters, then a course number. *)
Definition is_code (k : str) : Prop :=
  exists pr d l,
    k = pr ++ d ++ l /\ pr <> [] /\ forallb is_upper_AZ pr = true /\
    number_token d l.

(** What the loop of [main] maintains: the keys are codes, each once. *)
Definition catalog_ok (d : dict) : Prop :=
  Forall is_code (dict_keys d) /\ NoDup (dict_keys d).

(** A credit field: an integer, or two integers with a hyphen between. *)
Definition credit_field (cr : str) : Prop :=
  exists a,
    a <> [] /\ forallb (is_decimal unicode_decimal) a = true /\
    (cr = a \/
     exists b,
       b <> [] /\ forallb (is_decimal unicode_decimal) b = true /\
       cr = a ++ ch "-" :: b).

End Shapes.

(** What a regular expression matches, without the order in which the
    engine tries the alternatives: [Matches r w rest c c'] says that [r]
    matches [w] when [rest] follows, and turns the captures [c] into
    [c']. *)
Inductive Matches : regex -> str -> str -> caps -> caps -> Prop :=
| M_Eps rest c : Matches Eps [] rest c c
| M_Lit a rest c : Matches (Lit a) [a] rest c c
| M_ILit a x rest c :
    lit_ignorecase a x = true -> Matches (ILit a) [x] rest c c
| M_Class p x rest c : p x = true -> Matches (Class p) [x] rest c c
| M_Eos rest c : at_end rest = true -> Matches Eos [] rest c c
| M_Seq r1 r2 w1 w2 rest c c1 c2 :
    Matches r1 w1 (w2 ++ rest) c c1 ->
    Matches r2 w2 rest c1 c2 ->
    Matches (Seq r1 r2) (w1 ++ w2) rest c c2
| M_AltL r1 r2 w rest c c' :
    Matches r1 w rest c c' -> Matches (Alt r1 r2) w rest c c'
| M_AltR r1 r2 w rest c c' :
    Matches r2 w rest c c' -> Matches (Alt r1 r2) w rest c c'
| M_OptSome r w rest c c' :
    Matches r w rest c c' -> Matches (Opt r) w rest c c'
| M_OptNone r rest c : Matches (Opt r) [] rest c c
| M_Rep g min p w rest c :
    forallb p w = true -> (min <= length w)%nat ->
    Matches (Rep g min p) w rest c c
| M_Group n r w rest c c' :
    Matches r w rest c c' -> Matches (Group n r) w rest c ((n, w) :: c').

(** * Properties *)

(** ** Lists and strings *)

Lemma str_eqb_eq (a b : str) : str_eqb a b = true <-> a = b.
Proof.
  unfold str_eqb. destruct (list_eq_dec N.eq_dec a b); split; congruence.
Qed.

Lemma str_eqb_refl (a : str) : str_eqb a a = true.
Proof. now apply str_eqb_eq. Qed.

Lemma firstn_length_app (w rest : str) :
  firstn (length (w ++ rest) - length rest) (w ++ rest) = w.
Proof.
  rewrite length_app, Nat.add_sub.
  rewrite firstn_app, Nat.sub_diag, firstn_all. simpl. apply app_nil_r.
Qed.

Lemma take_while_app (p : N -> bool) (a b : str) :
  forallb p a = true ->
  match b with [] => True | x :: _ => p x = false end ->
  take_while p (a ++ b) = a.
Proof.
  intros Ha Hb. induction a as [|x a IH]; simpl in *.
  - destruct b as [|y b]; simpl; [reflexivity | now rewrite Hb].
  - apply andb_true_iff in Ha as [Hx Ha]. rewrite Hx. f_equal. now apply IH.
Qed.

Lemma drop_while_app (p : N -> bool) (a b : str) :
  forallb p a = true ->
  match b with [] => True | x :: _ => p x = false end ->
  drop_while p (a ++ b) = b.
Proof.
  intros Ha Hb. induction a as [|x a IH]; simpl in *.
  - destruct b as [|y b]; simpl; [reflexivity | now rewrite Hb].
  - apply andb_true_iff in Ha as [Hx Ha]. rewrite Hx. now apply IH.
Qed.

(** ** The matcher finds only what the pattern describes *)

Section MatcherSound.
Context {A : Type}.

Lemma rep_greedy_sound (p : N -> bool) (s : str) (k : str -> option A) :
  forall min r,
    rep_greedy p min s k = Some r ->
    exists w rest,
      s = w ++ rest /\ forallb p w = true /\ (min <= length w)%nat /\
      k rest = Some r.
Proof.
  induction s as [|x s IH]; intros min r H; simpl in H.
  - destruct min; [|discriminate]. exists [], []. simpl. auto.
  - destruct (p x) eqn:Hx.
    + destruct (rep_greedy p (Nat.pred min) s k) eqn:Hrec.
      * injection H as <-.
        destruct (IH _ _ Hrec) as (w & rest & -> & Hw & Hlen & Hk).
        exists (x :: w), rest. simpl. rewrite Hx, Hw. repeat split; auto. lia.
      * destruct min; [|discriminate]. exists [], (x :: s). simpl. auto.
    + destruct min; [|discriminate]. exists [], (x :: s). simpl. auto.
Qed.

Lemma rep_lazy_sound (p : N -> bool) (s : str) (k : str -> option A) :
  forall min r,
    rep_lazy p min s k = Some r ->
    exists w rest,
      s = w ++ rest /\ forallb p w = true /\ (min <= length w)%nat /\
      k rest = Some r.
Proof.
  induction s as [|x s IH]; intros min r H; simpl in H.
  - destruct min; [|discriminate].
    destruct (k []) eqn:Hk; [|discriminate].
    injection H as <-. exists [], []. simpl. auto.
  - assert (Hstep :
      (min = O /\ k (x :: s) = Some r) \/
      (p x = true /\ rep_lazy p (Nat.pred min) s k = Some r)).
    { destruct min as [|m].
      - destruct (k (x :: s)) eqn:Hk.
        + left. split; congruence.
        + right. destruct (p x); [auto | discriminate].
      - right. destruct (p x); [auto | discriminate]. }
    destruct Hstep as [[-> Hk] | [Hx Hrec]].
    + exists [], (x :: s). simpl. auto.
    + destruct (IH _ _ Hrec) as (w & rest & -> & Hw & Hlen & Hk).
      exists (x :: w), rest. simpl. rewrite Hx, Hw. repeat split; auto. lia.
Qed.
End MatcherSound.

Lemma rmatch_sound (r : regex) :
  forall s c k res,
    rmatch r s c k = Some res ->
    exists w rest c',
      s = w ++ rest /\ Matches r w rest c c' /\ k rest c' = Some res.
Proof.
  induction r as [|a|a|p| |r1 IH1 r2 IH2|r1 IH1 r2 IH2|r1 IH1|g min p|n r1 IH1];
    intros s c k res H; simpl in H.
  - exists [], s, c. repeat split; auto. constructor.
  - destruct s as [|x s]; [discriminate|].
    destruct (x =? a) eqn:E; [|discriminate]. apply N.eqb_eq in E as ->.
    exists [a], s, c. repeat split; auto. constructor.
  - destruct s as [|x s]; [discriminate|].
    destruct (lit_ignorecase a x) eqn:E; [|discriminate].
    exists [x], s, c. repeat split; auto. now constructor.
  - destruct s as [|x s]; [discriminate|].
    destruct (p x) eqn:E; [|discriminate].
    exists [x], s, c. repeat split; auto. now constructor.
  - destruct (at_end s) eqn:E; [|discriminate].
    exists [], s, c. repeat split; auto. now constructor.
  - apply IH1 in H as (w1 & rest1 & c1 & -> & M1 & H).
    apply IH2 in H as (w2 & rest & c2 & -> & M2 & H).
    exists (w1 ++ w2), rest, c2. rewrite app_assoc. repeat split; auto.
    econstructor; eauto.
  - destruct (rmatch r1 s c k) eqn:E.
    + injection H as <-. apply IH1 in E as (w & rest & c' & -> & M1 & E).
      exists w, rest, c'. repeat split; auto. now apply M_AltL.
    + apply IH2 in H as (w & rest & c' & -> & M2 & H).
      exists w, rest, c'. repeat split; auto. now apply M_AltR.
  - destruct (rmatch r1 s c k) eqn:E.
    + injection H as <-. apply IH1 in E as (w & rest & c' & -> & M1 & E).
      exists w, rest, c'. repeat split; auto. now apply M_OptSome.
    + exists [], s, c. repeat split; auto. apply M_OptNone.
  - destruct g.
    + apply rep_greedy_sound in H as (w & rest & -> & Hw & Hlen & H).
      exists w, rest, c. repeat split; auto. now constructor.
    + apply rep_lazy_sound in H as (w & rest & -> & Hw & Hlen & H).
      exists w, rest, c. repeat split; auto. now constructor.
  - apply IH1 in H as (w & rest & c' & -> & M1 & H).
    rewrite firstn_length_app in H.
    exists w, rest, ((n, w) :: c'). repeat split; auto. now constructor.
Qed.

Lemma re_match_sound (r : regex) (s rest : str) (g : caps) :
  re_match r s = Some (rest, g) ->
  exists w, s = w ++ rest /\ Matches r w rest [] g.
Proof.
  unfold re_match. intros H.
  apply rmatch_sound in H as (w & rest' & c' & -> & M & H).
  injection H as -> ->. eauto.
Qed.

(** ** The shape of a text the course pattern matches *)

(** Invert every hypothesis that a composite pattern matches. *)
Ltac inv_matches :=
  repeat match goal with
    | H : Matches (Seq _ _) _ _ _ _ |- _ => inversion H; subst; clear H
    | H : Matches (Group _ _) _ _ _ _ |- _ => inversion H; subst; clear H
    | H : Matches (Lit _) _ _ _ _ |- _ => inversion H; subst; clear H
    | H : Matches (ILit _) _ _ _ _ |- _ => inversion H; subst; clear H
    | H : Matches (Class _) _ _ _ _ |- _ => inversion H; subst; clear H
    | H : Matches (Rep _ _ _) _ _ _ _ |- _ => inversion H; subst; clear H
    | H : Matches (Opt _) _ _ _ _ |- _ => inversion H; subst; clear H
    | H : Matches (Alt _ _) _ _ _ _ |- _ => inversion H; subst; clear H
    | H : Matches Eps _ _ _ _ |- _ => inversion H; subst; clear H
    | H : Matches Eos _ _ _ _ |- _ => inversion H; subst; clear H
    end.

Lemma length_pos_nonnil (w : str) : (1 <= length w)%nat -> w <> [].
Proof. destruct w; simpl; [lia | discriminate]. Qed.

Section CourseShape.
Variable unicode_decimal : N -> option N.

Lemma course_shape (s rest : str) (g : caps) :
  re_match (COURSE_RE unicode_decimal) s = Some (rest, g) ->
  exists pr ws d l ti cr more,
    g = [(4, cr); (3, ti); (2, d ++ l); (1, pr)]%nat /\
    s = pr ++ ws ++ d ++ l ++ ch "." :: more /\
    pr <> [] /\ forallb is_upper_AZ pr = true /\
    ws <> [] /\ forallb is_space ws = true /\
    number_token unicode_decimal d l /\ credit_field unicode_decimal cr.
Proof.
  intros H. apply re_match_sound in H as (w & -> & M).
  unfold COURSE_RE in M. simpl in M.
  inv_matches.
  all: repeat match goal with
         | H : (1 <= length _)%nat |- _ => apply length_pos_nonnil in H
         end.
  all: repeat rewrite <- app_assoc.
  all: do 7 eexists.
  all: split; [reflexivity|].
  all: split; [reflexivity|].
  all: repeat (split; [eassumption|]).
  all: split;
    [ split; [eassumption|]; split; [eassumption|];
      first [now left | right; eexists; split; [reflexivity | eassumption]]
    | ].
  all: match goal with
       | |- credit_field _ (?a ++ []) =>
           exists a; rewrite app_nil_r; repeat split; auto
       | |- credit_field _ (?a ++ _ ++ ?b) =>
           exists a; repeat split; auto; right; exists b; repeat split; auto
       end.
Qed.

End CourseShape.

(** ** Substrings, splitting and integer conversion *)

Lemma starts_with_iff (p s : str) :
  starts_with p s = true <-> exists b, s = p ++ b.
Proof.
  revert s. induction p as [|a p IH]; intros s; simpl.
  - split; eauto.
  - destruct s as [|x s].
    + split; [discriminate | intros [b Hb]; discriminate].
    + rewrite andb_true_iff, N.eqb_eq, IH. split.
      * intros [-> [b ->]]. eauto.
      * intros [b Hb]. injection Hb as -> ->. eauto.
Qed.

Lemma contains_iff (p s : str) : contains p s = true <-> occurs_in p s.
Proof.
  unfold occurs_in. induction s as [|x s IH].
  - simpl. rewrite orb_false_r, starts_with_iff. split.
    + intros [b Hb]. exists [], b. exact Hb.
    + intros (a & b & H). destruct a as [|y a]; [eauto | discriminate].
  - cbn [contains]. rewrite orb_true_iff, IH, starts_with_iff. split.
    + intros [[b Hb] | (a & b & ->)].
      * exists [], b. exact Hb.
      * exists (x :: a), b. reflexivity.
    + intros (a & b & H). destruct a as [|y a].
      * left. eauto.
      * right. injection H as -> ->. eauto.
Qed.

Lemma contains_char (c : N) (s : str) :
  contains [c] s = existsb (N.eqb c) s.
Proof.
  induction s as [|x s IH]; simpl; [reflexivity|].
  rewrite IH. now destruct (c =? x).
Qed.

Lemma split_no_sep (sep : N) (b : str) :
  existsb (N.eqb sep) b = false -> split sep b = [b].
Proof.
  induction b as [|x b IH]; simpl; [reflexivity|].
  intros H. apply orb_false_iff in H as [Hx Hb].
  rewrite N.eqb_sym, Hx, (IH Hb). reflexivity.
Qed.

Lemma split_at_sep (sep : N) (a b : str) :
  existsb (N.eqb sep) a = false ->
  split sep (a ++ sep :: b) = a :: split sep b.
Proof.
  induction a as [|x a IH]; simpl; intros H.
  - now rewrite N.eqb_refl.
  - apply orb_false_iff in H as [Hx Ha].
    rewrite N.eqb_sym, Hx, (IH Ha). reflexivity.
Qed.

Section Conversion.
Variable unicode_decimal : N -> option N.

Lemma decimal_not_hyphen (c : N) :
  is_decimal unicode_decimal c = true -> (ch "-" =? c) = false.
Proof.
  intros H. apply N.eqb_neq. intros <-. discriminate H.
Qed.

Lemma upper_not_decimal (c : N) :
  is_upper_AZ c = true -> is_decimal unicode_decimal c = false.
Proof.
  unfold is_upper_AZ, is_decimal, decimal_value. intros H.
  apply andb_true_iff in H as [H1 H2].
  apply N.leb_le in H1, H2.
  replace (c <? 128) with true by (symmetry; apply N.ltb_lt; lia).
  replace (c <=? 57) with false by (symmetry; apply N.leb_gt; lia).
  now rewrite andb_false_r.
Qed.

Lemma digits_no_hyphen (s : str) :
  forallb (is_decimal unicode_decimal) s = true ->
  existsb (N.eqb (ch "-")) s = false.
Proof.
  induction s as [|x s IH]; cbn [forallb existsb]; [reflexivity|].
  intros H. apply andb_true_iff in H as [Hx Hs].
  now rewrite (decimal_not_hyphen _ Hx), (IH Hs).
Qed.

Lemma digits_value_total (s : str) :
  forallb (is_decimal unicode_decimal) s = true ->
  forall acc, exists z, digits_value unicode_decimal acc s = Some z.
Proof.
  induction s as [|x s IH]; simpl; intros H acc; [eauto|].
  apply andb_true_iff in H as [Hx Hs]. unfold is_decimal in Hx.
  destruct (decimal_value unicode_decimal x); [|discriminate]. now apply IH.
Qed.

(** [int] succeeds on a string of digits exactly when the string is within
    the interpreter's limit. *)
Lemma py_int_digits (s : str) :
  s <> [] -> forallb (is_decimal unicode_decimal) s = true ->
  ((length s <= int_max_str_digits)%nat ->
   exists z, py_int unicode_decimal s = Ret z) /\
  ((int_max_str_digits < length s)%nat ->
   py_int unicode_decimal s = Raise ValueError).
Proof.
  intros Hne Hd. unfold py_int. destruct s as [|x s]; [congruence|].
  split; intros Hlen.
  - replace (int_max_str_digits <? length (x :: s))%nat with false
      by (symmetry; apply Nat.ltb_ge; exact Hlen).
    destruct (digits_value_total _ Hd 0%Z) as [z ->]. eauto.
  - replace (int_max_str_digits <? length (x :: s))%nat with true
      by (symmetry; apply Nat.ltb_lt; exact Hlen).
    reflexivity.
Qed.

(** The range handling keeps the whole field of a single integer and the
    part after the hyphen of a range; it never raises on a credit field. *)
Lemma resolve_credits_field (cr : str) :
  credit_field unicode_decimal cr ->
  exists kept,
    resolve_credits cr = Ret kept /\ kept <> [] /\
    forallb (is_decimal unicode_decimal) kept = true /\
    (cr = kept \/
     exists a, forallb (is_decimal unicode_decimal) a = true /\ a <> [] /\
               cr = a ++ ch "-" :: kept).
Proof.
  intros (a & Ha & Hda & [-> | (b & Hb & Hdb & ->)]); unfold resolve_credits.
  - exists a. change (lit "-") with [ch "-"].
    rewrite contains_char, (digits_no_hyphen _ Hda). auto.
  - exists b.
    replace (contains (lit "-") (a ++ ch "-" :: b)) with true.
    + rewrite (split_at_sep _ _ _ (digits_no_hyphen _ Hda)).
      rewrite (split_no_sep _ _ (digits_no_hyphen _ Hdb)).
      cbn. repeat split; auto. right. exists a. auto.
    + symmetry. apply contains_iff. exists a, b. reflexivity.
Qed.

End Conversion.

(** ** The description search *)

Lemma re_search_sound (r : regex) (s rest : str) (g : caps) :
  re_search r s = Some (rest, g) ->
  exists pre w, s = pre ++ w ++ rest /\ Matches r w rest [] g.
Proof.
  induction s as [|x s IH]; simpl; intros H.
  - destruct (re_match r []) as [[rest' g']|] eqn:E; [|discriminate].
    injection H as -> ->. apply re_match_sound in E as (w & Hw & M).
    exists [], w. auto.
  - destruct (re_match r (x :: s)) as [[rest' g']|] eqn:E.
    + injection H as -> ->. apply re_match_sound in E as (w & Hw & M).
      exists [], w. auto.
    + apply IH in H as (pre & w & -> & M). exists (x :: pre), w. auto.
Qed.

(** A match of the description pattern always sets its group. *)
Lemma desc_group (w rest : str) (g : caps) :
  Matches DESC_RE w rest [] g -> exists d, g = [(1%nat, d)] /\ d <> [].
Proof.
  intros M.
  unfold DESC_RE, BOUNDARY_RE, RULES_REQUIREMENTS_RE, GRADING_STATUS_RE,
    REPEAT_RULES_RE in M.
  simpl in M. inv_matches.
  all: eexists; split; [reflexivity | now apply length_pos_nonnil].
Qed.

Lemma find_description_total (full_text : str) :
  exists d, find_description full_text = Ret d.
Proof.
  unfold find_description.
  destruct (re_search DESC_RE full_text) as [[rest g]|] eqn:E.
  - apply re_search_sound in E as (pre & w & _ & M).
    apply desc_group in M as (d & -> & _). cbn. eauto.
  - cbn. eauto.
Qed.

(** ** What [parse_course_block] returns *)

Section Parser.
Variable unicode_upper : N -> list N.
Variable unicode_decimal : N -> option N.

(** The record built for a text the course pattern matches, up to the
    conversion of the credits. *)
Lemma parse_normalized_matched (s rest : str) (g : caps) :
  re_match (COURSE_RE unicode_decimal) s = Some (rest, g) ->
  exists pr ws d l ti cr more kept desc,
    g = [(4, cr); (3, ti); (2, d ++ l); (1, pr)]%nat /\
    s = pr ++ ws ++ d ++ l ++ ch "." :: more /\
    pr <> [] /\ forallb is_upper_AZ pr = true /\
    ws <> [] /\ forallb is_space ws = true /\
    number_token unicode_decimal d l /\
    credit_field unicode_decimal cr /\
    resolve_credits cr = Ret kept /\
    find_description s = Ret desc /\
    parse_normalized unicode_upper unicode_decimal s =
      (n <- py_int unicode_decimal kept ;;
       Ret (Some {| key := pr ++ d ++ l; prefix := pr; number := d ++ l;
                    title := strip ti; credits := n; description := desc;
                    geneds := extract_geneds unicode_upper s |})).
Proof.
  intros H.
  destruct (course_shape _ _ _ _ H)
    as (pr & ws & d & l & ti & cr & more & Hg & Hs & Hpr & Hup & Hws & Hsp & Hnum & Hcr).
  destruct (resolve_credits_field _ _ Hcr) as (kept & Hkept & _).
  destruct (find_description_total s) as [desc Hdesc].
  exists pr, ws, d, l, ti, cr, more, kept, desc.
  repeat (split; [assumption|]).
  unfold parse_normalized. rewrite H, Hg. cbn [group_str group Nat.eqb bind].
  rewrite Hkept. cbn [bind]. rewrite Hdesc. reflexivity.
Qed.

End Parser.

Lemma upper_not_space (x : N) : is_upper_AZ x = true -> is_space x = false.
Proof.
  unfold is_upper_AZ, is_space. intros H.
  apply andb_true_iff in H as [H1 H2]. apply N.leb_le in H1, H2.
  repeat match goal with
    | |- context [?a <=? ?b] =>
        first [ replace (a <=? b) with false by (symmetry; apply N.leb_gt; lia)
              | replace (a <=? b) with true by (symmetry; apply N.leb_le; lia) ]
    | |- context [?a =? ?b] =>
        replace (a =? b) with false by (symmetry; apply N.eqb_neq; lia)
    end.
  reflexivity.
Qed.

Lemma space_not_upper (x : N) : is_space x = true -> is_upper_AZ x = false.
Proof.
  intros H. destruct (is_upper_AZ x) eqn:E; [|reflexivity].
  apply upper_not_space in E. congruence.
Qed.

Section ParserClaims.
Variable unicode_upper : N -> list N.
Variable unicode_decimal : N -> option N.

(** C1.  When the course pattern matches the normalised text of a block,
    group 1 (the prefix) is the leading run of upper-case letters of the
    text, group 2 (the number) is the token that follows the whitespace
    after it: the run of digits found there and at most one upper-case
    letter, ended by a period; and the record returned has these two as
    [prefix] and [number] and their concatenation, with nothing between,
    as [key]. *)
Theorem C1_prefix_number_code (block rest : str) (g : caps) :
  re_match (COURSE_RE unicode_decimal) (normalize block) = Some (rest, g) ->
  exists pr nu,
    group 1 g = Some pr /\ group 2 g = Some nu /\
    pr <> [] /\ pr = take_while is_upper_AZ (normalize block) /\
    (exists ws d l more,
       normalize block = pr ++ ws ++ nu ++ ch "." :: more /\
       ws <> [] /\ forallb is_space ws = true /\
       nu = d ++ l /\ number_token unicode_decimal d l /\
       d = take_while (is_decimal unicode_decimal) (nu ++ ch "." :: more)) /\
    (forall c,
       parse_course_block unicode_upper unicode_decimal block = Ret (Some c) ->
       key c = pr ++ nu /\ prefix c = pr /\ number c = nu).
Proof.
  intros H.
  destruct (parse_normalized_matched unicode_upper _ _ _ _ H)
    as (pr & ws & d & l & ti & cr & more & kept & desc & Hg & Hs & Hpr & Hup
        & Hws & Hsp & Hnum & Hcr & Hkept & Hdesc & Hparse).
  assert (Hrec : forall c,
            parse_course_block unicode_upper unicode_decimal block = Ret (Some c) ->
            key c = pr ++ d ++ l /\ prefix c = pr /\ number c = d ++ l).
  { intros c Hc. unfold parse_course_block, parse_course_block_body in Hc.
    rewrite Hparse in Hc.
    destruct (py_int unicode_decimal kept); cbn [bind] in Hc; [|discriminate].
    injection Hc as <-. cbn [key prefix number]. auto. }
  assert (Hmax : d = take_while (is_decimal unicode_decimal)
                   (d ++ l ++ ch "." :: more)).
  { symmetry. apply take_while_app; [apply Hnum|].
    destruct Hnum as (_ & _ & [-> | (u & -> & Hu)]); cbn [app].
    - reflexivity.
    - now apply upper_not_decimal. }
  exists pr, (d ++ l). subst g.
  split; [reflexivity|]. split; [reflexivity|]. split; [assumption|].
  split; [|split].
  - rewrite Hs. symmetry. apply take_while_app; [assumption|].
    destruct ws as [|x ws]; [congruence|]. cbn [app].
    cbn [forallb] in Hsp. apply andb_true_iff in Hsp as [Hx _].
    now apply space_not_upper.
  - exists ws, d, l, more. rewrite <- !app_assoc.
    split; [assumption|]. split; [assumption|]. split; [assumption|].
    split; [reflexivity|]. split; assumption.
  - exact Hrec.
Qed.

(** C3.  [parse_course_block] returns on every text, with a record or
    with none, and never raises; a record comes only from a text the course
    pattern matches, and a text the pattern does not match, such as a
    heading, gives no record. *)
Theorem C3_parse_never_raises (block : str) :
  (exists r, parse_course_block unicode_upper unicode_decimal block = Ret r) /\
  (forall c,
     parse_course_block unicode_upper unicode_decimal block = Ret (Some c) ->
     exists rest g,
       re_match (COURSE_RE unicode_decimal) (normalize block) = Some (rest, g)) /\
  (re_match (COURSE_RE unicode_decimal) (normalize block) = None ->
   parse_course_block unicode_upper unicode_decimal block = Ret None).
Proof.
  unfold parse_course_block, parse_course_block_body, parse_normalized.
  destruct (re_match (COURSE_RE unicode_decimal) (normalize block))
    as [[rest g]|] eqn:E.
  - split; [|split].
    + match goal with |- context [match ?m with Ret _ => _ | Raise _ => _ end] =>
        destruct m; eauto end.
    + eauto.
    + discriminate.
  - split; [|split]; eauto. discriminate.
Qed.

(** C10, as amended.  When the course pattern matches, the range handling
    does not raise and the credit string it keeps (the part after the
    hyphen of a range, the whole field otherwise) is a non-empty string of
    decimal digits.  Its conversion succeeds, and the block gives a record
    with that value, when the string has at most [int_max_str_digits]
    digits; a longer string makes [int] raise [ValueError], which is the one
    way from the credits to the [except] branch. *)
Theorem C10_credit_conversion (block rest : str) (g : caps) :
  re_match (COURSE_RE unicode_decimal) (normalize block) = Some (rest, g) ->
  exists cr kept,
    group 4 g = Some cr /\
    resolve_credits cr = Ret kept /\
    kept <> [] /\ forallb (is_decimal unicode_decimal) kept = true /\
    ((length kept <= int_max_str_digits)%nat ->
     exists n c,
       py_int unicode_decimal kept = Ret n /\
       parse_course_block_body unicode_upper unicode_decimal block
         = Ret (Some c) /\
       credits c = n) /\
    ((int_max_str_digits < length kept)%nat ->
     py_int unicode_decimal kept = Raise ValueError /\
     parse_course_block_body unicode_upper unicode_decimal block
       = Raise ValueError).
Proof.
  intros H.
  destruct (parse_normalized_matched unicode_upper _ _ _ _ H)
    as (pr & ws & d & l & ti & cr & more & kept & desc & Hg & Hs & Hpr & Hup
        & Hws & Hsp & Hnum & Hcr & Hkept & Hdesc & Hparse).
  destruct (resolve_credits_field _ _ Hcr) as (kept' & Hkept' & Hne & Hdig & _).
  assert (kept' = kept) as -> by congruence.
  destruct (py_int_digits _ _ Hne Hdig) as [Hok Hbad].
  exists cr, kept. subst g.
  split; [reflexivity|]. split; [assumption|]. split; [assumption|].
  split; [assumption|]. unfold parse_course_block_body. rewrite Hparse.
  split; intros Hlen.
  - destruct (Hok Hlen) as [n Hn]. rewrite Hn. cbn [bind].
    eexists n, _. split; [reflexivity|]. split; reflexivity.
  - rewrite (Hbad Hlen). split; reflexivity.
Qed.

End ParserClaims.

(** ** Closed instances of the parser claims *)

(** The hypothesis of C1 holds on a block with a lettered number. *)
Lemma C1_witness :
  exists rest g,
    re_match (COURSE_RE plain_decimal)
      (normalize (lit "ENGL 105L. Composition. 3 Credits.")) = Some (rest, g) /\
    exists pr nu,
      group 1 g = Some pr /\ group 2 g = Some nu /\
      pr = lit "ENGL" /\ nu = lit "105L" /\
      forall c,
        parse_course_block plain_upper plain_decimal
          (lit "ENGL 105L. Composition. 3 Credits.") = Ret (Some c) ->
        key c = pr ++ nu /\ prefix c = pr /\ number c = nu.
Proof.
  exists [], [(4, lit "3"); (3, lit "Composition"); (2, lit "105L");
              (1, lit "ENGL")]%nat.
  assert (H : re_match (COURSE_RE plain_decimal)
                (normalize (lit "ENGL 105L. Composition. 3 Credits."))
              = Some ([], [(4, lit "3"); (3, lit "Composition");
                           (2, lit "105L"); (1, lit "ENGL")]%nat))
    by (vm_compute; reflexivity).
  split; [exact H|].
  destruct (C1_prefix_number_code plain_upper plain_decimal _ _ _ H)
    as (pr & nu & H1 & H2 & _ & _ & _ & Hc).
  cbn [group Nat.eqb] in H1, H2. injection H1 as <-. injection H2 as <-.
  eexists _, _.
  split; [reflexivity|]. split; [reflexivity|].
  split; [reflexivity|]. split; [reflexivity|]. exact Hc.
Defined.

(** The hypothesis of C3's last part holds on a heading. *)
Lemma C3_witness :
  re_match (COURSE_RE plain_decimal) (normalize (lit "Course Listings")) = None /\
  parse_course_block plain_upper plain_decimal (lit "Course Listings") = Ret None.
Proof.
  assert (H : re_match (COURSE_RE plain_decimal)
                (normalize (lit "Course Listings")) = None)
    by (vm_compute; reflexivity).
  split; [exact H|].
  exact (proj2 (proj2 (C3_parse_never_raises plain_upper plain_decimal _)) H).
Defined.

(** The hypothesis of C10 holds on a block with a credit range. *)
Lemma C10_witness :
  exists rest g,
    re_match (COURSE_RE plain_decimal)
      (normalize (lit "COMP 393. Practicum. 1-3 Credits.")) = Some (rest, g) /\
    exists kept,
      group 4 g = Some (lit "1-3") /\
      resolve_credits (lit "1-3") = Ret kept /\
      (length kept <= int_max_str_digits)%nat /\
      exists n, py_int plain_decimal kept = Ret n.
Proof.
  exists [], [(4, lit "1-3"); (3, lit "Practicum"); (2, lit "393");
              (1, lit "COMP")]%nat.
  assert (H : re_match (COURSE_RE plain_decimal)
                (normalize (lit "COMP 393. Practicum. 1-3 Credits."))
              = Some ([], [(4, lit "1-3"); (3, lit "Practicum");
                           (2, lit "393"); (1, lit "COMP")]%nat))
    by (vm_compute; reflexivity).
  split; [exact H|].
  destruct (C10_credit_conversion plain_upper plain_decimal _ _ _ H)
    as (cr & kept & Hcr & Hkept & _ & _ & Hok & _).
  cbn [group Nat.eqb] in Hcr. injection Hcr as <-.
  exists kept. split; [reflexivity|]. split; [exact Hkept|].
  assert (Hlen : (length kept <= int_max_str_digits)%nat).
  { vm_compute in Hkept. injection Hkept as <-. vm_compute. lia. }
  split; [exact Hlen|].
  destruct (Hok Hlen) as (n & c & Hn & _). exists n. exact Hn.
Defined.

(** C10 as first stated fails on a credit field of 4301 digits: the course
    pattern matches, the digits are kept whole, [int] raises, and the
    [except] branch turns the block into no record. *)
Lemma C10_counterexample :
  (exists rest g,
     re_match (COURSE_RE plain_decimal) (normalize long_credits_block)
       = Some (rest, g) /\
     group 4 g = Some long_credits) /\
  resolve_credits long_credits = Ret long_credits /\
  forallb (is_decimal plain_decimal) long_credits = true /\
  py_int plain_decimal long_credits = Raise ValueError /\
  parse_course_block_body plain_upper plain_decimal long_credits_block
    = Raise ValueError /\
  parse_course_block plain_upper plain_decimal long_credits_block = Ret None.
Proof.
  split.
  - exists [], [(4, long_credits); (3, lit "T"); (2, lit "1");
                (1, lit "MATH")]%nat.
    split; vm_compute; reflexivity.
  - repeat split; vm_compute; reflexivity.
Qed.

(** ** The general-education tags *)

Lemma fold_left_append_filter (f : str -> bool) (l acc : list str) :
  fold_left (fun geneds p => if f p then geneds ++ [p] else geneds) l acc
  = acc ++ filter f l.
Proof.
  revert acc. induction l as [|p l IH]; intros acc; simpl.
  - now rewrite app_nil_r.
  - rewrite IH. destruct (f p); [|reflexivity].
    now rewrite <- app_assoc.
Qed.

Lemma fold_left_append_filter_nil (f : str -> bool) (l : list str) :
  fold_left (fun geneds p => if f p then geneds ++ [p] else geneds) l []
  = filter f l.
Proof. rewrite fold_left_append_filter. apply app_nil_l. Qed.

Lemma filter_keeps_two (f : str -> bool) (a b c : list str) (x y : str) :
  f x = true -> f y = true ->
  filter f (a ++ x :: b ++ y :: c)
  = filter f a ++ x :: filter f b ++ y :: filter f c.
Proof.
  intros Hx Hy. rewrite filter_app. cbn [filter]. rewrite Hx.
  rewrite filter_app. cbn [filter]. now rewrite Hy.
Qed.

Lemma occurs_in_flat_map (f : N -> list N) (p s : str) :
  flat_map f p = p -> occurs_in p s -> occurs_in p (flat_map f s).
Proof.
  intros Hp (a & b & ->). exists (flat_map f a), (flat_map f b).
  now rewrite !flat_map_app, Hp.
Qed.

Lemma vocabulary_around_global_quant :
  GENED_PATTERNS
  = firstn 9 GENED_PATTERNS ++
    lit "FC-GLOBAL" :: firstn 2 (skipn 10 GENED_PATTERNS) ++
    lit "FC-QUANT" :: skipn 13 GENED_PATTERNS.
Proof. vm_compute. reflexivity. Qed.

Section Geneds.
Variable unicode_upper : N -> list N.

Lemma extract_geneds_filter (text : str) :
  extract_geneds unicode_upper text
  = filter (fun p => contains p (str_upper unicode_upper text)) GENED_PATTERNS.
Proof.
  unfold extract_geneds.
  apply (fold_left_append_filter_nil
           (fun p => contains p (str_upper unicode_upper text))).
Qed.

(** C5.  [extract_geneds] returns the tags of the vocabulary that occur in
    the upper-cased text, each once and in the order of the vocabulary;
    a text in which ["FC-QUANT"] and ["FC-GLOBAL"] occur, in whichever
    order, gives both, ["FC-GLOBAL"] before ["FC-QUANT"] as in the
    vocabulary. *)
Theorem C5_geneds_in_vocabulary_order (text : str) :
  extract_geneds unicode_upper text
    = filter (fun p => contains p (str_upper unicode_upper text)) GENED_PATTERNS /\
  (forall tag,
     In tag (extract_geneds unicode_upper text) <->
     In tag GENED_PATTERNS /\ occurs_in tag (str_upper unicode_upper text)) /\
  (occurs_in (lit "FC-QUANT") text -> occurs_in (lit "FC-GLOBAL") text ->
   exists l1 l2 l3,
     extract_geneds unicode_upper text
       = l1 ++ lit "FC-GLOBAL" :: l2 ++ lit "FC-QUANT" :: l3).
Proof.
  split; [apply extract_geneds_filter|]. split.
  - intros tag. rewrite extract_geneds_filter, filter_In, contains_iff.
    reflexivity.
  - intros Hq Hg. rewrite extract_geneds_filter.
    set (f := fun p => contains p (str_upper unicode_upper text)).
    assert (Hfq : f (lit "FC-QUANT") = true).
    { apply contains_iff. apply occurs_in_flat_map; [vm_compute; reflexivity | exact Hq]. }
    assert (Hfg : f (lit "FC-GLOBAL") = true).
    { apply contains_iff. apply occurs_in_flat_map; [vm_compute; reflexivity | exact Hg]. }
    rewrite vocabulary_around_global_quant.
    rewrite (filter_keeps_two f _ _ _ _ _ Hfg Hfq). eauto.
Qed.

End Geneds.

(** ** Normalisation *)

Section RepTotal.
Context {A : Type}.

(** Before a continuation that always succeeds, a greedy repetition takes
    the whole run. *)
Lemma rep_greedy_total (p : N -> bool) (k : str -> option A) (f : str -> A) :
  (forall s, k s = Some (f s)) ->
  forall s, rep_greedy p 0 s k = Some (f (drop_while p s)).
Proof.
  intros Hk. induction s as [|x s IH]; simpl.
  - apply Hk.
  - destruct (p x); [now rewrite IH | apply Hk].
Qed.
End RepTotal.

Lemma re_match_ws_run (s : str) :
  re_match WS_RUN s =
  match s with
  | [] => None
  | x :: s' => if is_space x then Some (drop_while is_space s', []) else None
  end.
Proof.
  unfold re_match, WS_RUN. cbn [rmatch]. destruct s as [|x s]; [reflexivity|].
  cbn [rep_greedy Nat.pred]. destruct (is_space x); [|reflexivity].
  now rewrite (rep_greedy_total is_space _ (fun s' => (s', @nil (nat * str)))).
Qed.

Lemma drop_while_length (p : N -> bool) (s : str) :
  (length (drop_while p s) <= length s)%nat.
Proof.
  induction s as [|x s IH]; simpl; [lia|]. destruct (p x); simpl; lia.
Qed.

Lemma squeeze_drop_spaces (s : str) :
  squeeze false (drop_while is_space s) = squeeze true s.
Proof.
  induction s as [|x s IH]; simpl; [reflexivity|].
  destruct (is_space x) eqn:E; [exact IH|]. simpl. now rewrite E.
Qed.

(** The substitution of the source is the one-pass collapse. *)
Lemma re_sub_ws_run (s : str) : re_sub WS_RUN (lit " ") s = squeeze false s.
Proof.
  unfold re_sub.
  assert (H : forall n s, (length s < n)%nat ->
                re_sub_steps n WS_RUN (lit " ") s = squeeze false s).
  { clear s. induction n as [|n IH]; intros s Hlen; [lia|].
    cbn [re_sub_steps]. rewrite re_match_ws_run.
    destruct s as [|x s]; [reflexivity|]. cbn [squeeze].
    cbn [length] in Hlen.
    destruct (is_space x) eqn:E.
    - pose proof (drop_while_length is_space s) as Hd.
      replace (length (drop_while is_space s) <? length (x :: s))%nat with true
        by (symmetry; apply Nat.ltb_lt; cbn [length]; lia).
      rewrite IH by lia. now rewrite squeeze_drop_spaces.
    - rewrite IH by lia. reflexivity. }
  apply H. lia.
Qed.

Lemma is_space_nbsp_replaced (c : N) :
  is_space (if c =? 160 then 32 else c) = is_space c.
Proof.
  destruct (c =? 160) eqn:E; [|reflexivity].
  apply N.eqb_eq in E as ->. reflexivity.
Qed.

Lemma squeeze_replace_nbsp (b : bool) (s : str) :
  squeeze b (replace 160 32 s) = squeeze b s.
Proof.
  revert b. induction s as [|x s IH]; intros b; [reflexivity|].
  cbn [replace map squeeze]. fold (replace 160 32 s).
  rewrite is_space_nbsp_replaced, !IH.
  destruct (is_space x) eqn:E; [reflexivity|].
  destruct (x =? 160) eqn:E'; [|reflexivity].
  apply N.eqb_eq in E' as ->. discriminate E.
Qed.

Lemma words_are_words (s : str) : Forall is_word (words s).
Proof.
  induction s as [|x s IH]; cbn [words]; [constructor|].
  destruct (is_space x) eqn:E; [exact IH|].
  assert (Hx : is_word [x]).
  { split; [discriminate|]. cbn. now rewrite E. }
  destruct s as [|y s']; [repeat constructor; apply Hx|].
  destruct (is_space y) eqn:E'; [constructor; [apply Hx | exact IH]|].
  destruct (words (y :: s')) as [|w ws]; [repeat constructor; apply Hx|].
  inversion IH as [|? ? [Hw1 Hw2] Hws]; subst. constructor; [|exact Hws].
  split; [discriminate|]. cbn [forallb]. now rewrite E, Hw2.
Qed.

Lemma join_cons (sep w : str) (ws : list str) :
  join sep (w :: ws) = w ++ flat_map (fun x => sep ++ x) ws.
Proof. reflexivity. Qed.

Lemma join_cons_cons (sep w w' : str) (ws : list str) :
  join sep (w :: w' :: ws) = w ++ sep ++ join sep (w' :: ws).
Proof. cbn [join flat_map]. now rewrite <- app_assoc. Qed.

Lemma join_words_head (w : str) (ws : list str) :
  is_word w ->
  exists x r, join (lit " ") (w :: ws) = x :: r /\ is_space x = false.
Proof.
  intros [Hne Hw]. destruct w as [|x w]; [congruence|].
  exists x, (w ++ flat_map (fun y => lit " " ++ y) ws). split; [reflexivity|].
  cbn [forallb] in Hw. apply andb_true_iff in Hw as [Hx _].
  now apply negb_true_iff in Hx.
Qed.

Lemma rstrip_cons_nonempty (x : N) (r : str) :
  rstrip r <> [] -> rstrip (x :: r) = x :: rstrip r.
Proof. cbn [rstrip]. destruct (rstrip r); [congruence | reflexivity]. Qed.

(** Trimming the right end of the collapsed text leaves the words joined
    by single spaces, after one space when the text began inside
    whitespace that the collapse had not yet seen. *)
Lemma rstrip_squeeze (s : str) :
  forall b,
    rstrip (squeeze b s) =
    match words s with
    | [] => []
    | w :: ws =>
        (if negb b && match s with [] => false | x :: _ => is_space x end
         then lit " " else []) ++ join (lit " ") (w :: ws)
    end.
Proof.
  induction s as [|x s IH]; intros b; [reflexivity|].
  pose proof (words_are_words (x :: s)) as Hall.
  cbn [squeeze words] in *. destruct (is_space x) eqn:E.
  - specialize (IH true). cbn [negb andb app] in IH.
    destruct b; cbn [negb andb].
    + rewrite IH. destruct (words s); reflexivity.
    + cbn [rstrip]. rewrite IH. destruct (words s) as [|w ws]; [reflexivity|].
      inversion Hall as [|? ? Hw _]; subst.
      destruct (join_words_head w ws Hw) as (y & r & -> & _). reflexivity.
  - rewrite andb_false_r. cbn [app]. specialize (IH false).
    cbn [negb andb] in IH. cbn [rstrip]. rewrite IH. clear IH.
    destruct s as [|y s'].
    + cbn [words]. rewrite E. reflexivity.
    + pose proof (words_are_words (y :: s')) as Hall'.
      destruct (is_space y) eqn:E'.
      * destruct (words (y :: s')) as [|w ws]; [now rewrite E|].
        inversion Hall' as [|? ? Hw' _]; subst.
        destruct (join_words_head w ws Hw') as (z & r & Hj & _).
        rewrite join_cons_cons. cbn [app]. rewrite Hj. reflexivity.
      * destruct (words (y :: s')) as [|w ws]; [now rewrite E|].
        inversion Hall' as [|? ? Hw' _]; subst.
        destruct (join_words_head w ws Hw') as (z & r & Hj & _).
        cbn [app]. rewrite Hj. rewrite !join_cons in *. cbn [app].
        now rewrite Hj.
Qed.

(** Trimming and collapsing give the words joined by single spaces. *)
Lemma strip_squeeze (u : str) : strip (squeeze false u) = normalize_spec u.
Proof.
  unfold normalize_spec, strip. rewrite rstrip_squeeze.
  pose proof (words_are_words u) as Hall.
  destruct (words u) as [|w ws]; [reflexivity|].
  inversion Hall as [|? ? Hw _]; subst.
  destruct (join_words_head w ws Hw) as (z & r & -> & Hz).
  cbn [negb andb].
  destruct (match u with [] => false | x :: _ => is_space x end);
    cbn [app lit lstrip]; cbn; now rewrite Hz.
Qed.

Lemma normalize_spec_eq (text : str) : normalize text = normalize_spec text.
Proof.
  unfold normalize. rewrite re_sub_ws_run, squeeze_replace_nbsp.
  apply strip_squeeze.
Qed.

Lemma in_join (sep : str) (ws : list str) (c : N) :
  In c (join sep ws) -> In c sep \/ exists w, In w ws /\ In c w.
Proof.
  destruct ws as [|w ws]; [intros []|]. rewrite join_cons, in_app_iff.
  intros [H | H]; [right; exists w; cbn; auto|].
  apply in_flat_map in H as (w' & Hw' & H). apply in_app_iff in H as [H | H].
  - now left.
  - right. exists w'. cbn. auto.
Qed.

Lemma word_no_space (w : str) (c : N) :
  is_word w -> In c w -> is_space c = false.
Proof.
  intros [_ Hw] Hc. rewrite forallb_forall in Hw.
  apply Hw in Hc. now apply negb_true_iff in Hc.
Qed.

Lemma single_spaced_word_app (w r : str) :
  forallb (fun c => negb (is_space c)) w = true ->
  single_spaced r = true -> single_spaced (w ++ r) = true.
Proof.
  intros Hw Hr. induction w as [|x w IH]; [exact Hr|].
  cbn [forallb] in Hw. apply andb_true_iff in Hw as [Hx Hw].
  apply negb_true_iff in Hx. specialize (IH Hw).
  cbn [app single_spaced]. destruct (w ++ r); [reflexivity|].
  now rewrite Hx, IH.
Qed.

Lemma single_spaced_join (ws : list str) :
  Forall is_word ws -> single_spaced (join (lit " ") ws) = true.
Proof.
  induction ws as [|w ws IH]; intros Hall; [reflexivity|].
  inversion Hall as [|? ? Hw Hws]; subst. specialize (IH Hws).
  destruct ws as [|w' ws].
  - rewrite join_cons. cbn [flat_map]. rewrite app_nil_r.
    rewrite <- (app_nil_r w). now apply single_spaced_word_app; [apply Hw|].
  - rewrite join_cons_cons. apply single_spaced_word_app; [apply Hw|].
    inversion Hws as [|? ? Hw' _]; subst.
    destruct (join_words_head w' ws Hw') as (z & r & Hj & Hz).
    rewrite Hj in *. change (single_spaced (ch " " :: z :: r) = true).
    cbn [single_spaced] in *. rewrite Hz in *. rewrite andb_false_r. exact IH.
Qed.

Lemma rstrip_app_nonempty (a b : str) :
  rstrip b <> [] -> rstrip (a ++ b) = a ++ rstrip b.
Proof.
  intros Hb. induction a as [|x a IH]; [reflexivity|].
  cbn [app]. rewrite rstrip_cons_nonempty; rewrite IH; [reflexivity|].
  destruct a; [exact Hb | discriminate].
Qed.

Lemma rstrip_word (w : str) : is_word w -> rstrip w = w.
Proof.
  intros [Hne Hw]. induction w as [|x w IH]; [congruence|].
  cbn [forallb] in Hw. apply andb_true_iff in Hw as [Hx Hw].
  apply negb_true_iff in Hx. destruct w as [|y w].
  - cbn. now rewrite Hx.
  - assert (Hr : rstrip (y :: w) = y :: w) by (apply IH; [discriminate | exact Hw]).
    rewrite rstrip_cons_nonempty; rewrite Hr; [reflexivity | discriminate].
Qed.

Lemma rstrip_join (ws : list str) :
  Forall is_word ws -> rstrip (join (lit " ") ws) = join (lit " ") ws.
Proof.
  induction ws as [|w ws IH]; intros Hall; [reflexivity|].
  inversion Hall as [|? ? Hw Hws]; subst. specialize (IH Hws).
  destruct ws as [|w' ws].
  - rewrite join_cons. cbn [flat_map]. rewrite app_nil_r. now apply rstrip_word.
  - rewrite join_cons_cons, app_assoc.
    inversion Hws as [|? ? Hw' _]; subst.
    destruct (join_words_head w' ws Hw') as (z & r & Hj & Hz).
    rewrite rstrip_app_nonempty; rewrite IH; [reflexivity|].
    rewrite Hj. discriminate.
Qed.

Lemma lstrip_join (ws : list str) :
  Forall is_word ws -> lstrip (join (lit " ") ws) = join (lit " ") ws.
Proof.
  intros Hall. destruct ws as [|w ws]; [reflexivity|].
  inversion Hall as [|? ? Hw _]; subst.
  destruct (join_words_head w ws Hw) as (z & r & -> & Hz).
  cbn [lstrip]. now rewrite Hz.
Qed.

Section Normalisation.
Variable unicode_upper : N -> list N.
Variable unicode_decimal : N -> option N.

(** C6.  Normalisation is a total function of the text: its result is the
    words of the text separated by single ordinary spaces.  So every
    whitespace character left is an ordinary space (no non-breaking space
    is left), no two of them are neighbours, none is at either end, and
    the course pattern is applied to this result. *)
Theorem C6_normalize_text (text : str) :
  normalize text = normalize_spec text /\
  (forall c, In c (normalize text) -> is_space c = true -> c = ch " ") /\
  ~ In 160 (normalize text) /\
  single_spaced (normalize text) = true /\
  strip (normalize text) = normalize text /\
  parse_course_block_body unicode_upper unicode_decimal text
    = parse_normalized unicode_upper unicode_decimal (normalize text).
Proof.
  pose proof (words_are_words text) as Hall.
  assert (Hsp : forall c, In c (normalize text) -> is_space c = true ->
                          c = ch " ").
  { intros c Hc Hs. rewrite normalize_spec_eq in Hc.
    apply in_join in Hc as [Hc | (w & Hw & Hc)].
    - destruct Hc as [<- | []]. reflexivity.
    - rewrite Forall_forall in Hall.
      rewrite (word_no_space w c (Hall w Hw) Hc) in Hs. discriminate. }
  split; [apply normalize_spec_eq|]. split; [exact Hsp|]. split.
  { intros H. specialize (Hsp 160 H eq_refl). discriminate. }
  rewrite normalize_spec_eq. unfold normalize_spec, strip.
  split; [now apply single_spaced_join|]. split.
  - rewrite rstrip_join by assumption. now apply lstrip_join.
  - unfold parse_course_block_body. now rewrite normalize_spec_eq.
Qed.

End Normalisation.

(** ** The catalog *)

Lemma dict_set_keys (k : str) (v : entry) (d : dict) :
  dict_keys (dict_set k v d)
  = if existsb (fun k' => str_eqb k' k) (dict_keys d) then dict_keys d
    else dict_keys d ++ [k].
Proof.
  induction d as [|[k' v'] d IH]; [reflexivity|].
  cbn [dict_set dict_keys map fst existsb]. fold (dict_keys d).
  destruct (str_eqb k' k) eqn:E; [reflexivity|].
  cbn [map fst orb]. fold (dict_keys (dict_set k v d)). rewrite IH.
  now destruct (existsb (fun k'0 => str_eqb k'0 k) (dict_keys d)).
Qed.

Lemma existsb_str_eqb (k : str) (l : list str) :
  existsb (fun k' => str_eqb k' k) l = true <-> In k l.
Proof.
  rewrite existsb_exists. split.
  - intros (x & Hx & E). apply str_eqb_eq in E. now subst.
  - intros H. exists k. split; [exact H | apply str_eqb_refl].
Qed.

Lemma dict_set_in_keys (k k' : str) (v : entry) (d : dict) :
  In k' (dict_keys (dict_set k v d)) <-> k' = k \/ In k' (dict_keys d).
Proof.
  rewrite dict_set_keys.
  destruct (existsb (fun x => str_eqb x k) (dict_keys d)) eqn:E.
  - apply existsb_str_eqb in E. split; [auto|]. intros [-> | H]; auto.
  - rewrite in_app_iff. cbn. split; intros [H | H]; auto.
    destruct H as [<- | []]. auto.
Qed.

Lemma dict_set_nodup (k : str) (v : entry) (d : dict) :
  NoDup (dict_keys d) -> NoDup (dict_keys (dict_set k v d)).
Proof.
  intros H. rewrite dict_set_keys.
  destruct (existsb (fun x => str_eqb x k) (dict_keys d)) eqn:E; [exact H|].
  apply NoDup_app; [exact H | repeat constructor; intros [] |].
  intros x Hx [<- | []].
  apply existsb_str_eqb in Hx. congruence.
Qed.

Lemma dict_get_set_same (k : str) (v : entry) (d : dict) :
  dict_get k (dict_set k v d) = Some v.
Proof.
  induction d as [|[k' v'] d IH]; cbn [dict_set dict_get].
  - now rewrite str_eqb_refl.
  - destruct (str_eqb k' k) eqn:E; cbn [dict_get]; rewrite E; auto.
Qed.

Lemma dict_get_set_other (k k' : str) (v : entry) (d : dict) :
  k' <> k -> dict_get k' (dict_set k v d) = dict_get k' d.
Proof.
  intros Hne. induction d as [|[k0 v0] d IH]; cbn [dict_set dict_get].
  - destruct (str_eqb k k') eqn:E; [|reflexivity].
    apply str_eqb_eq in E. congruence.
  - destruct (str_eqb k0 k) eqn:E; cbn [dict_get].
    + apply str_eqb_eq in E as ->.
      destruct (str_eqb k k') eqn:E'; [|reflexivity].
      apply str_eqb_eq in E'. congruence.
    + now rewrite IH.
Qed.

Section Catalog.
Variable unicode_upper : N -> list N.
Variable unicode_decimal : N -> option N.
Variable get_soup : str -> res (list str).

Lemma store_courses_app (cs1 cs2 : list course) (all : dict) :
  store_courses (cs1 ++ cs2) all = store_courses cs2 (store_courses cs1 all).
Proof. unfold store_courses. apply fold_left_app. Qed.

Lemma store_courses_cons (c : course) (cs : list course) (all : dict) :
  store_courses (c :: cs) all
  = store_courses cs (dict_set (key c) (snd (pop_key c)) all).
Proof. reflexivity. Qed.

Lemma scrape_all_app (ds1 ds2 : list str) (all : dict) :
  scrape_all unicode_upper unicode_decimal get_soup (ds1 ++ ds2) all
  = scrape_all unicode_upper unicode_decimal get_soup ds2
      (scrape_all unicode_upper unicode_decimal get_soup ds1 all).
Proof. unfold scrape_all. apply fold_left_app. Qed.

Lemma scrape_all_cons (d : str) (ds : list str) (all : dict) :
  scrape_all unicode_upper unicode_decimal get_soup (d :: ds) all
  = scrape_all unicode_upper unicode_decimal get_soup ds
      (store_courses
         (scrape_department unicode_upper unicode_decimal get_soup d) all).
Proof. reflexivity. Qed.

(** The keys of a record that the parser returns follow the rule. *)
Lemma parsed_key_is_code (block : str) (c : course) :
  parse_course_block unicode_upper unicode_decimal block = Ret (Some c) ->
  is_code unicode_decimal (key c).
Proof.
  intros Hc.
  assert (Hm : exists rest g,
             re_match (COURSE_RE unicode_decimal) (normalize block)
             = Some (rest, g)).
  { unfold parse_course_block, parse_course_block_body, parse_normalized in Hc.
    destruct (re_match (COURSE_RE unicode_decimal) (normalize block))
      as [[rest g]|]; [eauto | discriminate]. }
  destruct Hm as (rest & g & H).
  destruct (parse_normalized_matched unicode_upper _ _ _ _ H)
    as (pr & ws & d & l & ti & cr & more & kept & desc & Hg & Hs & Hpr & Hup
        & Hws & Hsp & Hnum & Hcr & Hkept & Hdesc & Hparse).
  unfold parse_course_block, parse_course_block_body in Hc.
  rewrite Hparse in Hc.
  destruct (py_int unicode_decimal kept); cbn [bind] in Hc; [|discriminate].
  injection Hc as <-. cbn [key]. exists pr, d, l. auto.
Qed.

Lemma parse_blocks_keys (blocks : list str) :
  exists cs,
    parse_blocks unicode_upper unicode_decimal blocks = Ret cs /\
    Forall (fun c => is_code unicode_decimal (key c)) cs.
Proof.
  induction blocks as [|b blocks (cs & Hcs & Hall)]; cbn [parse_blocks].
  - exists []. split; [reflexivity | constructor].
  - destruct (parse_course_block unicode_upper unicode_decimal b)
      as [[c|]|e] eqn:E.
    + cbn [bind]. rewrite Hcs. cbn [bind]. exists (c :: cs).
      split; [reflexivity|]. constructor; [|exact Hall].
      now apply parsed_key_is_code with (block := b).
    + cbn [bind]. rewrite Hcs. cbn [bind]. exists cs. auto.
    + unfold parse_course_block in E.
      destruct (parse_course_block_body unicode_upper unicode_decimal b);
        discriminate.
Qed.

Lemma scrape_department_keys (dept : str) :
  Forall (fun c => is_code unicode_decimal (key c))
    (scrape_department unicode_upper unicode_decimal get_soup dept).
Proof.
  unfold scrape_department.
  destruct (get_soup (COURSES_URL ++ dept ++ lit "/")) as [blocks|e];
    cbn [bind try_except]; [|constructor].
  destruct (parse_blocks_keys blocks) as (cs & -> & Hall). exact Hall.
Qed.

Lemma store_courses_ok (cs : list course) :
  Forall (fun c => is_code unicode_decimal (key c)) cs ->
  forall all, catalog_ok unicode_decimal all ->
    catalog_ok unicode_decimal (store_courses cs all).
Proof.
  induction 1 as [|c cs Hc _ IH]; intros all Hall; [exact Hall|].
  rewrite store_courses_cons. apply IH. destruct Hall as [Hk Hn].
  split; [|now apply dict_set_nodup].
  rewrite Forall_forall in *. intros k Hin.
  apply dict_set_in_keys in Hin as [-> | Hin]; auto.
Qed.

Lemma scrape_all_ok (depts : list str) :
  forall all,
    catalog_ok unicode_decimal all ->
    catalog_ok unicode_decimal
      (scrape_all unicode_upper unicode_decimal get_soup depts all).
Proof.
  induction depts as [|d depts IH]; intros all Hall; [exact Hall|].
  rewrite scrape_all_cons. apply IH. apply store_courses_ok; [|exact Hall].
  apply scrape_department_keys.
Qed.

Lemma Forall_firstn {A : Type} (P : A -> Prop) (n : nat) (l : list A) :
  Forall P l -> Forall P (firstn n l).
Proof.
  intros H. revert n. induction H as [|x l Hx _ IH]; intros [|n]; cbn;
    constructor; auto.
Qed.

(** The last record stored under a key is the one found there. *)
Lemma store_courses_get (cs : list course) :
  forall all k,
    dict_get k (store_courses cs all)
    = match find (fun c => str_eqb (key c) k) (rev cs) with
      | Some c => Some (snd (pop_key c))
      | None => dict_get k all
      end.
Proof.
  induction cs as [|c cs IH] using rev_ind; intros all k; [reflexivity|].
  rewrite store_courses_app, rev_app_distr. cbn [rev app find].
  rewrite store_courses_cons. cbn [store_courses fold_left].
  destruct (str_eqb (key c) k) eqn:E.
  - apply str_eqb_eq in E as <-. apply dict_get_set_same.
  - rewrite dict_get_set_other; [apply IH|].
    intros ->. now rewrite str_eqb_refl in E.
Qed.

Lemma is_code_nonempty (k : str) : is_code unicode_decimal k -> k <> [].
Proof.
  intros (pr & d & l & -> & Hpr & _). destruct pr; [congruence | discriminate].
Qed.

(** C9.  At every point of the iteration of [main] (after any number of
    departments, and after any number of the records of the next one),
    and so at its end, every key of the catalog is non-empty and follows
    the construction rule of a code, and no key occurs twice; storing a
    record under a key that is present replaces the earlier record, so
    what is found under a key is the last record stored there. *)
Theorem C9_catalog_keys (depts : list str) (dept : str) (n : nat) :
  Forall (fun k => k <> [] /\ is_code unicode_decimal k)
    (dict_keys
       (store_courses
          (firstn n (scrape_department unicode_upper unicode_decimal get_soup dept))
          (scrape_all unicode_upper unicode_decimal get_soup depts []))) /\
  NoDup
    (dict_keys
       (store_courses
          (firstn n (scrape_department unicode_upper unicode_decimal get_soup dept))
          (scrape_all unicode_upper unicode_decimal get_soup depts []))) /\
  (forall k v all, dict_get k (dict_set k v all) = Some v) /\
  (forall cs all k,
     dict_get k (store_courses cs all)
     = match find (fun c => str_eqb (key c) k) (rev cs) with
       | Some c => Some (snd (pop_key c))
       | None => dict_get k all
       end).
Proof.
  assert (H : catalog_ok unicode_decimal
                (store_courses
                   (firstn n (scrape_department unicode_upper unicode_decimal
                                get_soup dept))
                   (scrape_all unicode_upper unicode_decimal get_soup depts []))).
  { apply store_courses_ok.
    - apply Forall_firstn, scrape_department_keys.
    - apply scrape_all_ok. split; constructor. }
  destruct H as [Hk Hn]. split; [|split; [exact Hn|split]].
  - rewrite Forall_forall in *. intros k Hin. split; [|now apply Hk].
    apply is_code_nonempty. now apply Hk.
  - intros k v all. apply dict_get_set_same.
  - intros cs all k. apply store_courses_get.
Qed.

Lemma scrape_all_flat (depts : list str) :
  forall all,
    scrape_all unicode_upper unicode_decimal get_soup depts all
    = store_courses
        (flat_map (scrape_department unicode_upper unicode_decimal get_soup)
           depts)
        all.
Proof.
  induction depts as [|d depts IH]; intros all; [reflexivity|].
  rewrite scrape_all_cons, IH. cbn [flat_map]. now rewrite store_courses_app.
Qed.

Lemma dict_get_in_keys (k : str) (v : entry) (d : dict) :
  dict_get k d = Some v -> In k (dict_keys d).
Proof.
  induction d as [|[k' v'] d IH]; cbn [dict_get dict_keys map fst];
    [discriminate|].
  destruct (str_eqb k' k) eqn:E; [|right; now apply IH].
  left. now apply str_eqb_eq.
Qed.

(** A record among those stored has its key in the catalog, and what is
    found there is a record of the same key among those stored. *)
Lemma store_courses_reaches (cs : list course) (all : dict) (c : course) :
  In c cs ->
  In (key c) (dict_keys (store_courses cs all)) /\
  exists c', In c' cs /\ key c' = key c /\
    dict_get (key c) (store_courses cs all) = Some (snd (pop_key c')).
Proof.
  intros Hin.
  assert (H : exists c', In c' cs /\ key c' = key c /\
                dict_get (key c) (store_courses cs all)
                = Some (snd (pop_key c'))).
  { rewrite store_courses_get.
    destruct (find (fun c0 => str_eqb (key c0) (key c)) (rev cs)) as [c'|] eqn:F.
    - apply find_some in F as [Hc' E]. exists c'.
      split; [now apply in_rev|]. split; [now apply str_eqb_eq | reflexivity].
    - apply in_rev in Hin. apply (find_none _ _ F) in Hin.
      now rewrite str_eqb_refl in Hin. }
  split; [|exact H]. destruct H as (c' & _ & _ & Hget).
  exact (dict_get_in_keys _ _ _ Hget).
Qed.

(** C7.  A department whose fetch raises gives no record and leaves the
    catalog as it was, and the loop goes on with every department after
    it: the final catalog is the one the departments before the failed one
    gave, with the records of all the departments after it stored in it
    in order, so each record of a later department has its key in the
    final catalog, where a record of a later department with that key is
    found.  The run gives what it gives without the failed department. *)
Theorem C7_failed_department (dept : str) (e : exn) :
  get_soup (COURSES_URL ++ dept ++ lit "/") = Raise e ->
  scrape_department unicode_upper unicode_decimal get_soup dept = [] /\
  (forall all,
     scrape_all unicode_upper unicode_decimal get_soup [dept] all = all) /\
  (forall before after all,
     scrape_all unicode_upper unicode_decimal get_soup
       (before ++ dept :: after) all
     = scrape_all unicode_upper unicode_decimal get_soup (before ++ after) all) /\
  (forall before after all,
     scrape_all unicode_upper unicode_decimal get_soup
       (before ++ dept :: after) all
     = store_courses
         (flat_map (scrape_department unicode_upper unicode_decimal get_soup)
            after)
         (scrape_all unicode_upper unicode_decimal get_soup before all)) /\
  (forall before after all later c,
     In later after ->
     In c (scrape_department unicode_upper unicode_decimal get_soup later) ->
     In (key c)
       (dict_keys
          (scrape_all unicode_upper unicode_decimal get_soup
             (before ++ dept :: after) all)) /\
     exists c' later',
       In later' after /\
       In c' (scrape_department unicode_upper unicode_decimal get_soup later') /\
       key c' = key c /\
       dict_get (key c)
         (scrape_all unicode_upper unicode_decimal get_soup
            (before ++ dept :: after) all)
       = Some (snd (pop_key c'))).
Proof.
  intros H.
  assert (Hd : scrape_department unicode_upper unicode_decimal get_soup dept = []).
  { unfold scrape_department. rewrite H. reflexivity. }
  assert (Hrest : forall before after all,
            scrape_all unicode_upper unicode_decimal get_soup
              (before ++ dept :: after) all
            = store_courses
                (flat_map
                   (scrape_department unicode_upper unicode_decimal get_soup)
                   after)
                (scrape_all unicode_upper unicode_decimal get_soup before all)).
  { intros before after all.
    rewrite scrape_all_app, scrape_all_cons, Hd. apply scrape_all_flat. }
  split; [exact Hd|]. split; [|split; [|split; [exact Hrest|]]].
  - intros all. rewrite scrape_all_cons, Hd. reflexivity.
  - intros before after all.
    rewrite !scrape_all_app, scrape_all_cons, Hd. reflexivity.
  - intros before after all later c Hlater Hc. rewrite Hrest.
    assert (Hin : In c (flat_map
                          (scrape_department unicode_upper unicode_decimal
                             get_soup) after))
      by (apply in_flat_map; eauto).
    destruct (store_courses_reaches _
                (scrape_all unicode_upper unicode_decimal get_soup before all)
                _ Hin) as (Hkey & c' & Hc' & Hk & Hget).
    split; [exact Hkey|].
    apply in_flat_map in Hc' as (later' & Hl' & Hc').
    exists c', later'. auto.
Qed.

End Catalog.

Section Determinism.
Variable unicode_upper : N -> list N.
Variable unicode_decimal : N -> option N.

Lemma scrape_all_ext (get1 get2 : str -> res (list str)) (depts : list str) :
  (forall dept, In dept depts ->
     get1 (COURSES_URL ++ dept ++ lit "/") = get2 (COURSES_URL ++ dept ++ lit "/")) ->
  forall all,
    scrape_all unicode_upper unicode_decimal get1 depts all
    = scrape_all unicode_upper unicode_decimal get2 depts all.
Proof.
  induction depts as [|d depts IH]; intros H all; [reflexivity|].
  rewrite !scrape_all_cons. unfold scrape_department.
  rewrite (H d (or_introl eq_refl)). apply IH.
  intros dept Hin. apply H. now right.
Qed.

(** C8.  Two runs over the department list in which every department's URL
    gets the same response write the same output, character for character,
    to the output file and to the backup file. *)
Theorem C8_main_deterministic (get1 get2 : str -> res (list str)) :
  (forall dept, In dept ARTS_SCIENCES_DEPTS ->
     get1 (COURSES_URL ++ dept ++ lit "/") = get2 (COURSES_URL ++ dept ++ lit "/")) ->
  main unicode_upper unicode_decimal get1 = main unicode_upper unicode_decimal get2 /\
  fst (main unicode_upper unicode_decimal get1)
  = snd (main unicode_upper unicode_decimal get1).
Proof.
  intros H. unfold main.
  rewrite (scrape_all_ext get1 get2 ARTS_SCIENCES_DEPTS H []).
  split; reflexivity.
Qed.

End Determinism.

(** ** Closed instances of the catalog claims *)

(** The hypothesis of C7 holds for a department whose page does not
    answer, between two that do: the course of the department after it is
    in the catalog. *)
Lemma C7_witness :
  example_soup (COURSES_URL ++ lit "math" ++ lit "/") = Raise RequestException /\
  scrape_department plain_upper plain_decimal example_soup (lit "math") = [] /\
  scrape_all plain_upper plain_decimal example_soup
    [lit "comp"; lit "math"; lit "stor"] []
  = scrape_all plain_upper plain_decimal example_soup
      [lit "comp"; lit "stor"] [] /\
  In (lit "STOR120")
    (dict_keys
       (scrape_all plain_upper plain_decimal example_soup
          [lit "comp"; lit "math"; lit "stor"] [])).
Proof.
  assert (H : example_soup (COURSES_URL ++ lit "math" ++ lit "/")
              = Raise RequestException) by (vm_compute; reflexivity).
  split; [exact H|].
  destruct (C7_failed_department plain_upper plain_decimal example_soup
              (lit "math") RequestException H)
    as (Hd & _ & Hskip & _ & Hlater).
  split; [exact Hd|]. split; [exact (Hskip [lit "comp"] [lit "stor"] [])|].
  assert (Hin : In stor_course
                  (scrape_department plain_upper plain_decimal example_soup
                     (lit "stor")))
    by (vm_compute; left; reflexivity).
  exact (proj1 (Hlater [lit "comp"] [lit "stor"] [] (lit "stor") stor_course
                  (or_introl eq_refl) Hin)).
Defined.

Lemma example_soups_agree (dept : str) :
  example_soup (COURSES_URL ++ dept ++ lit "/")
  = example_soup_more (COURSES_URL ++ dept ++ lit "/").
Proof.
  unfold example_soup_more.
  destruct (str_eqb (COURSES_URL ++ dept ++ lit "/") (lit "https://example.org/"))
    eqn:E; [|reflexivity].
  apply str_eqb_eq in E. cbv in E. congruence.
Qed.

(** The hypothesis of C8 holds for two sites that differ on a page [main]
    does not fetch. *)
Lemma C8_witness :
  (forall dept, In dept ARTS_SCIENCES_DEPTS ->
     example_soup (COURSES_URL ++ dept ++ lit "/")
     = example_soup_more (COURSES_URL ++ dept ++ lit "/")) /\
  main plain_upper plain_decimal example_soup
  = main plain_upper plain_decimal example_soup_more.
Proof.
  assert (H : forall dept, In dept ARTS_SCIENCES_DEPTS ->
                example_soup (COURSES_URL ++ dept ++ lit "/")
                = example_soup_more (COURSES_URL ++ dept ++ lit "/"))
    by (intros dept _; apply example_soups_agree).
  split; [exact H|].
  exact (proj1 (C8_main_deterministic plain_upper plain_decimal
                  example_soup example_soup_more H)).
Defined.

(** ** The credit range and the description on concrete blocks *)

(** C2.  On the range ["3-1"] the record's credits are 1, the endpoint
    after the hyphen, and not 3, the larger endpoint; the range ["1-3"]
    and the single value ["3"] both give 3. *)
Theorem C2_credits_of_ranges :
  credits_of (lit "MATH 290. Directed Study. 3-1 Credits.") = Some 1%Z /\
  credits_of (lit "MATH 290. Directed Study. 1-3 Credits.") = Some 3%Z /\
  credits_of (lit "MATH 290. Directed Study. 3 Credits.") = Some 3%Z.
Proof. repeat split; vm_compute; reflexivity. Qed.

(** C4.  The description of the specification's example is the text before
    the boundary phrase.  A block with no text between the credits and the
    boundary phrase gets the boundary phrase itself as its description,
    and a block with ["credit."] in its title gets the credits statement
    in its description. *)
Theorem C4_description_examples :
  description_of
    (lit "ENGL 105. Composition. 3 Credits. Instruction in composition. Rules & Requirements: ...")
  = Some (lit "Instruction in composition.") /\
  description_of
    (lit "COMP 390. Topics. 3 Credits. Rules & Requirements Grading Status: Letter grade.")
  = Some (lit "Rules & Requirements") /\
  description_of (lit "MATH 190. Extra credit. 3 Credits. Problem solving.")
  = Some (lit "3 Credits. Problem solving.") /\
  description_of (lit "MATH 190. Topics. 3 Credits.") = Some [].
Proof. repeat split; vm_compute; reflexivity. Qed.

(** ** Closed instances of the tag claim *)

Example geneds_of_reversed_text :
  extract_geneds plain_upper (lit "Gen Ed: FC-QUANT, fc-global, research.")
  = [lit "FC-GLOBAL"; lit "FC-QUANT"; lit "RESEARCH"].
Proof. vm_compute. reflexivity. Qed.

(** The hypotheses of C5's last part hold on a text that names the two
    tags in the order opposite to the vocabulary's. *)
Lemma C5_witness :
  occurs_in (lit "FC-QUANT") (lit "Gen Ed: FC-QUANT, FC-GLOBAL.") /\
  occurs_in (lit "FC-GLOBAL") (lit "Gen Ed: FC-QUANT, FC-GLOBAL.") /\
  exists l1 l2 l3,
    extract_geneds plain_upper (lit "Gen Ed: FC-QUANT, FC-GLOBAL.")
    = l1 ++ lit "FC-GLOBAL" :: l2 ++ lit "FC-QUANT" :: l3.
Proof.
  assert (Hq : occurs_in (lit "FC-QUANT") (lit "Gen Ed: FC-QUANT, FC-GLOBAL."))
    by (exists (lit "Gen Ed: "), (lit ", FC-GLOBAL."); reflexivity).
  assert (Hg : occurs_in (lit "FC-GLOBAL") (lit "Gen Ed: FC-QUANT, FC-GLOBAL."))
    by (exists (lit "Gen Ed: FC-QUANT, "), (lit "."); reflexivity).
  split; [exact Hq|]. split; [exact Hg|].
  exact (proj2 (proj2 (C5_geneds_in_vocabulary_order plain_upper _)) Hq Hg).
Defined.

(** ** The credits of a record, in general *)

Section Credits.
Variable unicode_upper : N -> list N.
Variable unicode_decimal : N -> option N.

Lemma py_int_value (s : str) (n : Z) :
  py_int unicode_decimal s = Ret n ->
  digits_value unicode_decimal 0 s = Some n.
Proof.
  unfold py_int. destruct s as [|x s]; [discriminate|].
  destruct (int_max_str_digits <? length (x :: s))%nat; [discriminate|].
  destruct (digits_value unicode_decimal 0 (x :: s)); [|discriminate].
  now intros [= ->].
Qed.

(** X1.  The credits of a record are the value of a single-integer credit
    field, and the value of the endpoint after the hyphen of a range; for
    a range that ascends this is the larger endpoint. *)
Theorem credits_from_field (block rest : str) (g : caps) (c : course) :
  re_match (COURSE_RE unicode_decimal) (normalize block) = Some (rest, g) ->
  parse_course_block unicode_upper unicode_decimal block = Ret (Some c) ->
  exists cr,
    group 4 g = Some cr /\
    ((forallb (is_decimal unicode_decimal) cr = true /\
      digits_value unicode_decimal 0 cr = Some (credits c)) \/
     (exists a b va,
        cr = a ++ ch "-" :: b /\
        forallb (is_decimal unicode_decimal) a = true /\
        forallb (is_decimal unicode_decimal) b = true /\
        digits_value unicode_decimal 0 a = Some va /\
        digits_value unicode_decimal 0 b = Some (credits c) /\
        ((va <= credits c)%Z -> credits c = Z.max va (credits c)))).
Proof.
  intros H Hc.
  destruct (parse_normalized_matched unicode_upper _ _ _ _ H)
    as (pr & ws & d & l & ti & cr & more & kept & desc & Hg & Hs & Hpr & Hup
        & Hws & Hsp & Hnum & Hcr & Hkept & Hdesc & Hparse).
  unfold parse_course_block, parse_course_block_body in Hc.
  rewrite Hparse in Hc.
  destruct (py_int unicode_decimal kept) as [n|] eqn:Hn;
    cbn [bind] in Hc; [|discriminate].
  injection Hc as <-. cbn [credits]. apply py_int_value in Hn.
  exists cr. subst g. split; [reflexivity|].
  destruct (resolve_credits_field _ _ Hcr)
    as (kept' & Hkept' & Hne & Hdig & [-> | (a & Ha & Hane & ->)]);
    assert (kept' = kept) as -> by congruence.
  - left. auto.
  - right. destruct (digits_value_total _ _ Ha 0%Z) as [va Hva].
    exists a, kept, va. repeat split; auto. intros Hle. lia.
Qed.

End Credits.

(** The hypotheses hold on a block with an ascending range. *)
Lemma credits_from_field_witness :
  exists cr,
    group 4 [(4, lit "2-4"); (3, lit "Practicum"); (2, lit "393");
             (1, lit "COMP")]%nat = Some cr /\
    cr = lit "2-4" /\
    credits_of (lit "COMP 393. Practicum. 2-4 Credits.") = Some 4%Z.
Proof.
  assert (H : re_match (COURSE_RE plain_decimal)
                (normalize (lit "COMP 393. Practicum. 2-4 Credits."))
              = Some ([], [(4, lit "2-4"); (3, lit "Practicum");
                           (2, lit "393"); (1, lit "COMP")]%nat))
    by (vm_compute; reflexivity).
  assert (Hc : parse_course_block plain_upper plain_decimal
                 (lit "COMP 393. Practicum. 2-4 Credits.")
               = Ret (Some {| key := lit "COMP393"; prefix := lit "COMP";
                              number := lit "393"; title := lit "Practicum";
                              credits := 4; description := [];
                              geneds := [] |}))
    by (vm_compute; reflexivity).
  destruct (credits_from_field plain_upper plain_decimal _ _ _ _ H Hc)
    as (cr & Hcr & _).
  exists cr. split; [exact Hcr|]. cbn [group Nat.eqb] in Hcr.
  split; [congruence|]. vm_compute. reflexivity.
Defined.

(** ** The description, without the matcher *)

Lemma rmatch_lits_ignorecase (p : str) (r : regex) :
  forall s c k,
    rmatch (lits ILit p r) s c k =
    match skip_ignorecase p s with
    | Some s' => rmatch r s' c k
    | None => None
    end.
Proof.
  induction p as [|a p IH]; intros s c k; [reflexivity|].
  cbn [lits rmatch skip_ignorecase]. destruct s as [|x s]; [reflexivity|].
  destruct (lit_ignorecase a x); [apply IH | reflexivity].
Qed.

Section GreedyRun.
Context {A : Type}.

(** A greedy repetition stops at the end of the run when what follows
    matches there. *)
Lemma rep_greedy_longest (p : N -> bool) (k : str -> option A) (s : str) (r : A) :
  k (drop_while p s) = Some r -> rep_greedy p 0 s k = Some r.
Proof.
  induction s as [|x s IH]; cbn [drop_while rep_greedy Nat.pred]; [auto|].
  destruct (p x); [|auto]. intros H. now rewrite (IH H).
Qed.

(** It gives nothing back when what follows cannot begin inside the
    run. *)
Lemma rep_greedy_no_giving_back (p : N -> bool) (k : str -> option A) (s : str) :
  (forall x s', p x = true -> k (x :: s') = None) ->
  rep_greedy p 0 s k = k (drop_while p s).
Proof.
  intros Hk. induction s as [|x s IH]; cbn [drop_while rep_greedy Nat.pred];
    [reflexivity|].
  destruct (p x) eqn:E; [|reflexivity]. rewrite IH.
  destruct (k (drop_while p s)); [reflexivity | now apply Hk].
Qed.
End GreedyRun.

(** The whitespace characters, one by one. *)
Lemma is_space_cases (x : N) :
  is_space x = true ->
  In x [9; 10; 11; 12; 13; 28; 29; 30; 31; 32; 133; 160; 5760; 8192; 8193;
        8194; 8195; 8196; 8197; 8198; 8199; 8200; 8201; 8202; 8232; 8233;
        8239; 8287; 12288].
Proof.
  unfold is_space. intros H.
  repeat match type of H with
    | (_ || _) = true => apply orb_true_iff in H as [H | H]
    end;
  repeat match type of H with
    | (_ && _) = true => apply andb_true_iff in H as [? H]
    end;
  repeat match goal with
    | H : (_ <=? _) = true |- _ => apply N.leb_le in H
    | H : (_ =? _) = true |- _ => apply N.eqb_eq in H
    end;
  cbn [In]; lia.
Qed.

Lemma space_not_literal (a x : N) :
  is_space x = true ->
  forallb (fun y => negb (lit_ignorecase a y))
    [9; 10; 11; 12; 13; 28; 29; 30; 31; 32; 133; 160; 5760; 8192; 8193;
     8194; 8195; 8196; 8197; 8198; 8199; 8200; 8201; 8202; 8232; 8233;
     8239; 8287; 12288] = true ->
  lit_ignorecase a x = false.
Proof.
  intros Hx Hall. apply is_space_cases in Hx.
  rewrite forallb_forall in Hall. apply Hall in Hx.
  now apply negb_true_iff in Hx.
Qed.

(** [\s*] before a literal that no whitespace matches. *)
Lemma rmatch_spaces_then_literal (a : N) (r : regex) (s : str) (c : caps)
      (k : str -> caps -> option (str * caps)) :
  (forall x, is_space x = true -> lit_ignorecase a x = false) ->
  rmatch (Rep Greedy 0 is_space >> ILit a >> r) s c k
  = rmatch (ILit a >> r) (drop_while is_space s) c k.
Proof.
  intros Ha. cbn [rmatch].
  apply (rep_greedy_no_giving_back is_space
           (fun s' => match s' with
                      | [] => None
                      | x :: s'0 =>
                          if lit_ignorecase a x then rmatch r s'0 c k else None
                      end)).
  intros x s' Hx. now rewrite (Ha x Hx).
Qed.

Lemma rmatch_spaces_then_word (a : N) (p : str) (s : str) (c : caps)
      (k : str -> caps -> option (str * caps)) :
  (forall x, is_space x = true -> lit_ignorecase a x = false) ->
  rmatch (Rep Greedy 0 is_space >> lits ILit (a :: p) Eps) s c k
  = match skip_ignorecase (a :: p) (drop_while is_space s) with
    | Some s' => k s' c
    | None => None
    end.
Proof.
  intros Ha. cbn [lits]. rewrite rmatch_spaces_then_literal by exact Ha.
  change (ILit a >> lits ILit p Eps) with (lits ILit (a :: p) Eps).
  now rewrite rmatch_lits_ignorecase.
Qed.

Lemma no_space_literal_ok (a : N) :
  forallb (fun y => negb (lit_ignorecase a y))
    [9; 10; 11; 12; 13; 28; 29; 30; 31; 32; 133; 160; 5760; 8192; 8193;
     8194; 8195; 8196; 8197; 8198; 8199; 8200; 8201; 8202; 8232; 8233;
     8239; 8287; 12288] = true ->
  forall x, is_space x = true -> lit_ignorecase a x = false.
Proof. intros H x Hx. now apply space_not_literal. Qed.

(** Two words with optional whitespace between them. *)
Lemma rmatch_phrase (p : str) (a : N) (q : str) (s : str) (c : caps)
      (k : str -> caps -> option (str * caps)) :
  (forall x, is_space x = true -> lit_ignorecase a x = false) ->
  rmatch (lits ILit p (Rep Greedy 0 is_space >> lits ILit (a :: q) Eps)) s c k
  = match after_phrase p (a :: q) s with
    | Some r => k r c
    | None => None
    end.
Proof.
  intros Ha. unfold after_phrase. rewrite rmatch_lits_ignorecase.
  destruct (skip_ignorecase p s) as [r|]; [|reflexivity].
  now apply rmatch_spaces_then_word.
Qed.

Lemma rmatch_rules_requirements (s : str) (c : caps)
      (k : str -> caps -> option (str * caps)) :
  rmatch RULES_REQUIREMENTS_RE s c k
  = match after_rules_requirements s with
    | Some r => k r c
    | None => None
    end.
Proof.
  unfold RULES_REQUIREMENTS_RE, after_rules_requirements, after_phrase.
  rewrite rmatch_lits_ignorecase.
  destruct (skip_ignorecase (lit "Rules") s) as [r1|]; [|reflexivity].
  rewrite rmatch_spaces_then_literal
    by (apply no_space_literal_ok; vm_compute; reflexivity).
  change (lit "&") with [ch "&"]. cbn [rmatch skip_ignorecase].
  destruct (drop_while is_space r1) as [|x s1]; [reflexivity|].
  destruct (lit_ignorecase (ch "&") x); [|reflexivity].
  apply (rmatch_spaces_then_word (ch "R") (lit "equirements")).
  apply no_space_literal_ok. vm_compute. reflexivity.
Qed.

Lemma rmatch_grading_status (s : str) (c : caps)
      (k : str -> caps -> option (str * caps)) :
  rmatch GRADING_STATUS_RE s c k
  = match after_phrase (lit "Grading") (lit "Status") s with
    | Some r => k r c
    | None => None
    end.
Proof.
  apply (rmatch_phrase (lit "Grading") (ch "S") (lit "tatus")).
  apply no_space_literal_ok. vm_compute. reflexivity.
Qed.

Lemma rmatch_repeat_rules (s : str) (c : caps)
      (k : str -> caps -> option (str * caps)) :
  rmatch REPEAT_RULES_RE s c k
  = match after_phrase (lit "Repeat") (lit "Rules") s with
    | Some r => k r c
    | None => None
    end.
Proof.
  apply (rmatch_phrase (lit "Repeat") (ch "R") (lit "ules")).
  apply no_space_literal_ok. vm_compute. reflexivity.
Qed.

(** The boundary pattern, read without the matcher. *)
Lemma rmatch_boundary (s : str) (c : caps) :
  rmatch BOUNDARY_RE s c k_final
  = option_map (fun r => (r, c)) (boundary_end s).
Proof.
  unfold BOUNDARY_RE, boundary_end. cbn [rmatch].
  rewrite rmatch_rules_requirements, rmatch_grading_status, rmatch_repeat_rules.
  destruct (after_rules_requirements s); [reflexivity|].
  destruct (after_phrase (lit "Grading") (lit "Status") s); [reflexivity|].
  destruct (after_phrase (lit "Repeat") (lit "Rules") s); [reflexivity|].
  now destruct (at_end s).
Qed.

Lemma boundary_end_nil : boundary_end [] = Some [].
Proof. reflexivity. Qed.

Lemma boundary_from_found (t : str) :
  exists r, boundary_end (from_boundary t) = Some r.
Proof.
  induction t as [|y t IH]; [exists []; reflexivity|].
  cbn [from_boundary]. unfold boundary_here.
  destruct (boundary_end (y :: t)) as [r|] eqn:E; [|exact IH].
  exists r. exact E.
Qed.

Lemma rep_lazy_zero {A : Type} (p : N -> bool) (s : str) (k : str -> option A) :
  rep_lazy p 0 s k =
  match k s with
  | Some r => Some r
  | None =>
      match s with
      | x :: s' => if p x then rep_lazy p 0 s' k else None
      | [] => None
      end
  end.
Proof. destruct s; reflexivity. Qed.

(** The lazy group before the boundary: it stops at the first boundary. *)
Lemma lazy_capture (whole : str) (c : caps) :
  forall t pre,
    whole = pre ++ t -> forallb not_newline t = true ->
    rep_lazy not_newline 0 t
      (fun s' =>
         rmatch BOUNDARY_RE s'
           ((1%nat, firstn (length whole - length s') whole) :: c) k_final)
    = option_map (fun r => (r, (1%nat, pre ++ until_boundary t) :: c))
        (boundary_end (from_boundary t)).
Proof.
  induction t as [|y t IH]; intros pre Hw Hnl; rewrite rep_lazy_zero,
    rmatch_boundary; subst whole.
  - cbn [until_boundary from_boundary]. rewrite boundary_end_nil.
    cbn [option_map]. now rewrite firstn_length_app, app_nil_r.
  - cbn [until_boundary from_boundary]. unfold boundary_here.
    destruct (boundary_end (y :: t)) as [r|] eqn:E; cbn [option_map].
    + now rewrite firstn_length_app, app_nil_r, E.
    + cbn [forallb] in Hnl. apply andb_true_iff in Hnl as [Hy Hnl]. rewrite Hy.
      rewrite (IH (pre ++ [y])); [|now rewrite <- app_assoc | exact Hnl].
      now rewrite <- app_assoc.
Qed.

Lemma rmatch_group_boundary (s : str) (c : caps) :
  forallb not_newline s = true ->
  rmatch (Group 1 (Rep Lazy 1 not_newline) >> BOUNDARY_RE) s c k_final
  = match s with
    | [] => None
    | x :: t =>
        option_map (fun r => (r, (1%nat, x :: until_boundary t) :: c))
          (boundary_end (from_boundary t))
    end.
Proof.
  intros Hnl. cbn [rmatch]. destruct s as [|x t]; [reflexivity|].
  cbn [rep_lazy Nat.pred]. cbn [forallb] in Hnl.
  apply andb_true_iff in Hnl as [Hx Hnl]. rewrite Hx.
  exact (lazy_capture (x :: t) c t [x] eq_refl Hnl).
Qed.

Lemma rstrip_tail (x : N) (s : str) : rstrip (x :: s) = x :: s -> rstrip s = s.
Proof.
  cbn [rstrip]. destruct (rstrip s) as [|y r] eqn:E.
  - destruct (is_space x); [discriminate|]. now intros [= <-].
  - now intros [= <-].
Qed.

Lemma tidy_tail (x : N) (s : str) : tidy (x :: s) -> tidy s.
Proof.
  intros [Hnl Hr]. cbn [forallb] in Hnl. apply andb_true_iff in Hnl as [_ Hnl].
  split; [exact Hnl | now apply rstrip_tail in Hr].
Qed.

Lemma tidy_suffix (a b : str) : tidy (a ++ b) -> tidy b.
Proof.
  induction a as [|x a IH]; [auto|]. intros H. apply IH.
  now apply tidy_tail in H.
Qed.

Lemma tidy_not_blank (t : str) :
  tidy t -> t <> [] -> drop_while is_space t <> [].
Proof.
  induction t as [|x t IH]; intros Ht Hne; [congruence|].
  cbn [drop_while]. destruct (is_space x) eqn:E; [|discriminate].
  destruct t as [|y t].
  - destruct Ht as [_ Hr]. cbn in Hr. rewrite E in Hr. discriminate.
  - apply IH; [now apply tidy_tail in Ht | discriminate].
Qed.

Lemma drop_while_suffix (p : N -> bool) (s : str) :
  exists a, s = a ++ drop_while p s.
Proof.
  induction s as [|x s [a Ha]]; [exists []; reflexivity|].
  cbn [drop_while]. destruct (p x).
  - exists (x :: a). cbn. now rewrite <- Ha.
  - exists []. reflexivity.
Qed.

Lemma skip_ignorecase_suffix (p : str) :
  forall s r, skip_ignorecase p s = Some r -> exists a, s = a ++ r.
Proof.
  induction p as [|a p IH]; intros s r H; cbn [skip_ignorecase] in H.
  - injection H as <-. exists []. reflexivity.
  - destruct s as [|x s]; [discriminate|].
    destruct (lit_ignorecase a x); [|discriminate].
    destruct (IH _ _ H) as [w ->]. exists (x :: w). reflexivity.
Qed.

Lemma after_credits_word_suffix (s t1 : str) :
  after_credits_word s = Some t1 -> exists a, s = a ++ t1.
Proof.
  unfold after_credits_word.
  destruct (skip_ignorecase (lit "Credits.") s) as [r|] eqn:E.
  - intros [= <-]. now apply skip_ignorecase_suffix in E.
  - apply skip_ignorecase_suffix.
Qed.

(** What follows the credits word: the whitespace, the group, the
    boundary. *)
Lemma rmatch_after_credits (t1 : str) (c : caps) :
  tidy t1 ->
  rmatch (Rep Greedy 0 is_space >> Group 1 (Rep Lazy 1 not_newline) >>
          BOUNDARY_RE) t1 c k_final
  = match drop_while is_space t1 with
    | [] => None
    | x :: t =>
        option_map (fun r => (r, (1%nat, x :: until_boundary t) :: c))
          (boundary_end (from_boundary t))
    end.
Proof.
  intros Ht.
  change (rmatch (Rep Greedy 0 is_space >> Group 1 (Rep Lazy 1 not_newline) >>
                  BOUNDARY_RE) t1 c k_final)
    with (rep_greedy is_space 0 t1
            (fun s' => rmatch (Group 1 (Rep Lazy 1 not_newline) >> BOUNDARY_RE)
                         s' c k_final)).
  destruct (drop_while_suffix is_space t1) as [a Ha].
  assert (Hd : tidy (drop_while is_space t1))
    by (apply (tidy_suffix a); now rewrite <- Ha).
  destruct (drop_while is_space t1) as [|x t] eqn:E.
  - destruct t1 as [|y t1]; [reflexivity|].
    exfalso. apply (tidy_not_blank (y :: t1) Ht); [discriminate | exact E].
  - destruct (boundary_from_found t) as [r Hr]. rewrite Hr. cbn [option_map].
    apply rep_greedy_longest. rewrite E.
    rewrite rmatch_group_boundary by apply Hd. now rewrite Hr.
Qed.

Lemma skip_ignorecase_app (p q : str) :
  forall s,
    skip_ignorecase (p ++ q) s =
    match skip_ignorecase p s with
    | Some t => skip_ignorecase q t
    | None => None
    end.
Proof.
  induction p as [|a p IH]; intros s; [reflexivity|].
  cbn [app skip_ignorecase]. destruct s as [|x s]; [reflexivity|].
  destruct (lit_ignorecase a x); [apply IH | reflexivity].
Qed.

Lemma s_is_not_period (x : N) :
  lit_ignorecase (ch "s") x = true -> lit_ignorecase (ch ".") x = false.
Proof.
  unfold lit_ignorecase. cbn [ascii_lower is_upper_AZ ch N_of_ascii].
  change (sre_fixes _) with [383] at 1. change (sre_fixes _) with (@nil N).
  cbn [existsb]. rewrite !orb_false_r. intros H.
  apply orb_true_iff in H as [H | H]; apply N.eqb_eq in H; rewrite H;
    reflexivity.
Qed.

(** The credits word at the head of the description pattern. *)
Lemma rmatch_desc_head (s : str) (c : caps)
      (k : str -> caps -> option (str * caps)) :
  rmatch DESC_RE s c k
  = match after_credits_word s with
    | Some t1 =>
        rmatch (Rep Greedy 0 is_space >> Group 1 (Rep Lazy 1 not_newline) >>
                BOUNDARY_RE) t1 c k
    | None => None
    end.
Proof.
  unfold DESC_RE, after_credits_word. rewrite rmatch_lits_ignorecase.
  change (lit "Credits.") with (lit "Credit" ++ [ch "s"; ch "."]).
  change (lit "Credit.") with (lit "Credit" ++ [ch "."]).
  rewrite !skip_ignorecase_app.
  destruct (skip_ignorecase (lit "Credit") s) as [t0|]; [|reflexivity].
  set (REST := Rep Greedy 0 is_space >> Group 1 (Rep Lazy 1 not_newline) >>
               BOUNDARY_RE).
  cbn [rmatch skip_ignorecase].
  destruct t0 as [|x t']; [reflexivity|].
  destruct (lit_ignorecase (ch "s") x) eqn:Es.
  - rewrite (s_is_not_period x Es).
    destruct t' as [|y t'']; [reflexivity|].
    destruct (lit_ignorecase (ch ".") y); [|reflexivity].
    now destruct (rmatch REST t'' c k).
  - now destruct (lit_ignorecase (ch ".") x).
Qed.

Lemma re_match_desc (s : str) :
  tidy s ->
  option_map snd (re_match DESC_RE s)
  = option_map (fun d => [(1%nat, d)]) (description_here s).
Proof.
  intros Hs. unfold re_match, description_here.
  change (fun s' c' => Some (s', c')) with k_final.
  rewrite rmatch_desc_head.
  destruct (after_credits_word s) as [t1|] eqn:E; [|reflexivity].
  apply after_credits_word_suffix in E as [a ->].
  rewrite rmatch_after_credits by now apply tidy_suffix in Hs.
  destruct (drop_while is_space t1) as [|x t]; [reflexivity|].
  destruct (boundary_from_found t) as [r ->]. reflexivity.
Qed.

Lemma re_search_desc (s : str) :
  tidy s ->
  option_map snd (re_search DESC_RE s)
  = option_map (fun d => [(1%nat, d)]) (description_raw s).
Proof.
  induction s as [|x s IH]; intros Hs; cbn [re_search description_raw];
    pose proof (re_match_desc _ Hs) as Hm.
  - destruct (re_match DESC_RE []) as [[r g]|];
      destruct (description_here []); cbn [option_map] in *;
      congruence.
  - destruct (re_match DESC_RE (x :: s)) as [[r g]|];
      destruct (description_here (x :: s)); cbn [option_map] in *;
      try congruence.
    apply IH. now apply tidy_tail in Hs.
Qed.

Lemma words_lstrip (s : str) : words (lstrip s) = words s.
Proof.
  induction s as [|x s IH]; [reflexivity|].
  cbn [lstrip words]. destruct (is_space x) eqn:E; [exact IH|].
  cbn [words]. now rewrite E.
Qed.

Lemma rstrip_nil_head (y : N) (s : str) :
  rstrip (y :: s) = [] -> is_space y = true.
Proof.
  cbn [rstrip]. destruct (rstrip s); [|discriminate].
  now destruct (is_space y).
Qed.

Lemma rstrip_head (y z : N) (s r : str) : rstrip (y :: s) = z :: r -> z = y.
Proof.
  cbn [rstrip]. destruct (rstrip s).
  - destruct (is_space y); [discriminate | now intros [= <-]].
  - now intros [= <-].
Qed.

Lemma words_rstrip (s : str) : words (rstrip s) = words s.
Proof.
  induction s as [|x s IH]; [reflexivity|].
  cbn [rstrip]. destruct (rstrip s) as [|z r] eqn:E.
  - cbn [words] in IH. cbn [words]. destruct (is_space x) eqn:Ex.
    + exact IH.
    + cbn [words]. rewrite Ex. destruct s as [|y s]; [reflexivity|].
      rewrite (rstrip_nil_head _ _ E). now rewrite <- IH.
  - destruct s as [|y s]; [discriminate|].
    pose proof (rstrip_head _ _ _ _ E) as ->.
    cbn [words] in *. destruct (is_space x); [exact IH|].
    destruct (is_space y); now rewrite IH.
Qed.

Lemma words_strip (s : str) : words (strip s) = words s.
Proof. unfold strip. now rewrite words_lstrip, words_rstrip. Qed.

(** [find_description] on a tidy text, without the matcher. *)
Lemma find_description_tidy (s : str) :
  tidy s ->
  find_description s
  = Ret match description_raw s with
        | Some d => normalize_spec d
        | None => []
        end.
Proof.
  intros Hs. unfold find_description. pose proof (re_search_desc s Hs) as H.
  destruct (re_search DESC_RE s) as [[r g]|];
    destruct (description_raw s) as [d|]; cbn [option_map snd] in H;
    try discriminate.
  - injection H as ->. cbn [group_str group Nat.eqb bind].
    rewrite re_sub_ws_run, strip_squeeze. unfold normalize_spec.
    now rewrite words_strip.
  - reflexivity.
Qed.

Lemma normalize_tidy (text : str) : tidy (normalize text).
Proof.
  pose proof (words_are_words text) as Hall.
  rewrite normalize_spec_eq. unfold normalize_spec. split.
  - apply forallb_forall. intros c Hc.
    apply in_join in Hc as [Hc | (w & Hw & Hc)].
    + destruct Hc as [<- | []]. reflexivity.
    + rewrite Forall_forall in Hall.
      pose proof (word_no_space w c (Hall w Hw) Hc) as Hsp.
      unfold not_newline. destruct (c =? 10) eqn:E; [|reflexivity].
      apply N.eqb_eq in E. subst c. discriminate Hsp.
  - now apply rstrip_join.
Qed.

Section Description.
Variable unicode_upper : N -> list N.
Variable unicode_decimal : N -> option N.

(** X2.  The description of a record, read off the normalised text
    without the matcher: at the first place of the text where ["Credit."] or
    ["Credits."] (in any case) is followed by more text, skip the
    whitespace, take one character and then the text up to the first
    boundary phrase or to the end; the description is the words of this
    run, separated by single spaces.  Without such a place it is empty. *)
Theorem description_without_matcher (block : str) (c : course) :
  parse_course_block unicode_upper unicode_decimal block = Ret (Some c) ->
  description c
  = match description_raw (normalize block) with
    | Some d => normalize_spec d
    | None => []
    end.
Proof.
  intros Hc.
  assert (Hm : exists rest g,
             re_match (COURSE_RE unicode_decimal) (normalize block)
             = Some (rest, g)).
  { unfold parse_course_block, parse_course_block_body, parse_normalized in Hc.
    destruct (re_match (COURSE_RE unicode_decimal) (normalize block))
      as [[rest g]|]; [eauto | discriminate]. }
  destruct Hm as (rest & g & H).
  destruct (parse_normalized_matched unicode_upper _ _ _ _ H)
    as (pr & ws & d & l & ti & cr & more & kept & desc & _ & _ & _ & _
        & _ & _ & _ & _ & _ & Hdesc & Hparse).
  unfold parse_course_block, parse_course_block_body in Hc.
  rewrite Hparse in Hc.
  destruct (py_int unicode_decimal kept); cbn [bind] in Hc; [|discriminate].
  injection Hc as <-. cbn [description].
  rewrite (find_description_tidy _ (normalize_tidy block)) in Hdesc.
  now injection Hdesc as <-.
Qed.

End Description.

(** The hypothesis holds on the block without description text; the run
    read off the text is the boundary phrase itself. *)
Lemma description_without_matcher_witness :
  description_raw
    (normalize (lit "COMP 390. Topics. 3 Credits. Rules & Requirements Grading Status: Letter grade."))
  = Some (lit "Rules & Requirements ") /\
  description_of
    (lit "COMP 390. Topics. 3 Credits. Rules & Requirements Grading Status: Letter grade.")
  = Some (normalize_spec (lit "Rules & Requirements ")).
Proof.
  split; [vm_compute; reflexivity|].
  unfold description_of.
  destruct (parse_course_block plain_upper plain_decimal
              (lit "COMP 390. Topics. 3 Credits. Rules & Requirements Grading Status: Letter grade."))
    as [[c|]|e] eqn:E; [|vm_compute in E; discriminate E..].
  rewrite (description_without_matcher plain_upper plain_decimal _ c E).
  vm_compute. reflexivity.
Defined.

(** * Further properties of the scraper *)

(** ** The layout of a matched block *)

Section Layout.
Variable unicode_decimal : N -> option N.

Lemma course_layout_nested (s rest : str) (g : caps) :
  re_match (COURSE_RE unicode_decimal) s = Some (rest, g) ->
  exists pr ws1 d l ws2 ti ws3 cr ws4 plural,
    g = [(4, cr); (3, ti); (2, d ++ l); (1, pr)]%nat /\
    s = (pr ++ ws1 ++ (d ++ l) ++ [46] ++ ws2 ++ ti ++ [46] ++ ws3 ++ cr ++
         ws4 ++ [67] ++ [114] ++ [101] ++ [100] ++ [105] ++ [116] ++
         plural ++ [46]) ++ rest /\
    forallb is_space ws1 = true /\ ws1 <> [] /\
    forallb is_space ws2 = true /\
    forallb not_newline ti = true /\ ti <> [] /\
    forallb is_space ws3 = true /\
    forallb is_space ws4 = true /\
    (plural = [] \/ plural = [ch "s"]).
Proof.
  intros H. apply re_match_sound in H as (w & -> & M).
  unfold COURSE_RE in M. simpl in M.
  inv_matches.
  all: repeat match goal with
         | H : (1 <= length _)%nat |- _ => apply length_pos_nonnil in H
         end.
  all: do 10 eexists.
  all: split; [reflexivity|].
  all: split; [reflexivity|].
  all: repeat (split; [eassumption|]).
  all: first [now left | now right].
Qed.

(** A text that the course pattern matches, piece by piece. *)
Lemma course_layout (s rest : str) (g : caps) :
  re_match (COURSE_RE unicode_decimal) s = Some (rest, g) ->
  exists pr ws1 nu ws2 ti ws3 cr ws4 plural,
    g = [(4, cr); (3, ti); (2, nu); (1, pr)]%nat /\
    s = pr ++ ws1 ++ nu ++ lit "." ++ ws2 ++ ti ++ lit "." ++ ws3 ++ cr ++
        ws4 ++ lit "Credit" ++ plural ++ lit "." ++ rest /\
    forallb is_space ws1 = true /\ ws1 <> [] /\
    forallb is_space ws2 = true /\
    forallb not_newline ti = true /\ ti <> [] /\
    forallb is_space ws3 = true /\
    forallb is_space ws4 = true /\
    (plural = [] \/ plural = [ch "s"]).
Proof.
  intros H.
  destruct (course_layout_nested _ _ _ H)
    as (pr & ws1 & d & l & ws2 & ti & ws3 & cr & ws4 & plural & Hg & Hs & Hrest).
  exists pr, ws1, (d ++ l), ws2, ti, ws3, cr, ws4, plural.
  split; [exact Hg|]. split; [|exact Hrest].
  rewrite Hs. repeat rewrite <- app_assoc. reflexivity.
Qed.

End Layout.

(** ** Whitespace inside a normalised text *)

Lemma normalize_blank (text : str) (c : N) :
  In c (normalize text) -> is_space c = true -> c = ch " ".
Proof.
  intros Hc Hs. rewrite normalize_spec_eq in Hc.
  apply in_join in Hc as [Hc | (w & Hw & Hc)].
  - destruct Hc as [<- | []]. reflexivity.
  - pose proof (words_are_words text) as Hall. rewrite Forall_forall in Hall.
    rewrite (word_no_space w c (Hall w Hw) Hc) in Hs. discriminate.
Qed.

Lemma normalize_single_spaced (text : str) :
  single_spaced (normalize text) = true.
Proof.
  rewrite normalize_spec_eq. apply single_spaced_join, words_are_words.
Qed.

Lemma single_spaced_tail (x : N) (s : str) :
  single_spaced (x :: s) = true -> single_spaced s = true.
Proof.
  cbn [single_spaced]. destruct s as [|y s]; [reflexivity|].
  intros H. now apply andb_true_iff in H as [_ H].
Qed.

Lemma single_spaced_suffix (a b : str) :
  single_spaced (a ++ b) = true -> single_spaced b = true.
Proof.
  induction a as [|x a IH]; [auto|]. intros H. apply IH.
  now apply single_spaced_tail in H.
Qed.

Lemma single_spaced_no_pair (x y : N) (s : str) :
  single_spaced (x :: y :: s) = true -> is_space x = true ->
  is_space y = false.
Proof.
  cbn [single_spaced]. intros H Hx. apply andb_true_iff in H as [H _].
  rewrite Hx in H. cbn in H. now apply negb_true_iff in H.
Qed.

(** A run of whitespace inside a normalised text is one ordinary space at
    most. *)
Lemma normalize_blank_run (text a ws b : str) :
  normalize text = a ++ ws ++ b -> forallb is_space ws = true ->
  ws = [] \/ ws = lit " ".
Proof.
  intros Hn Hws. destruct ws as [|x ws]; [now left|]. right.
  cbn [forallb] in Hws. apply andb_true_iff in Hws as [Hx Hws].
  assert (x = ch " ") as ->.
  { apply (normalize_blank text); [|exact Hx].
    rewrite Hn, in_app_iff. right. now left. }
  destruct ws as [|y ws]; [reflexivity|]. exfalso.
  cbn [forallb] in Hws. apply andb_true_iff in Hws as [Hy _].
  pose proof (normalize_single_spaced text) as Hss. rewrite Hn in Hss.
  apply single_spaced_suffix in Hss. cbn [app] in Hss.
  rewrite (single_spaced_no_pair _ _ _ Hss Hx) in Hy. discriminate.
Qed.

(** ** A record, taken apart *)

Section Record.
Variable unicode_upper : N -> list N.
Variable unicode_decimal : N -> option N.

(** Everything that holds of a record the parser returns. *)
Lemma parsed_record (block : str) (c : course) :
  parse_course_block unicode_upper unicode_decimal block = Ret (Some c) ->
  exists ws1 d l ws2 ti ws3 cr ws4 plural rest kept,
    normalize block
    = prefix c ++ ws1 ++ number c ++ lit "." ++ ws2 ++ ti ++ lit "." ++
      ws3 ++ cr ++ ws4 ++ lit "Credit" ++ plural ++ lit "." ++ rest /\
    forallb is_space ws1 = true /\ ws1 <> [] /\
    forallb is_space ws2 = true /\
    forallb not_newline ti = true /\ ti <> [] /\
    forallb is_space ws3 = true /\
    forallb is_space ws4 = true /\
    (plural = [] \/ plural = [ch "s"]) /\
    prefix c <> [] /\ forallb is_upper_AZ (prefix c) = true /\
    number c = d ++ l /\ number_token unicode_decimal d l /\
    key c = prefix c ++ number c /\
    title c = strip ti /\
    credit_field unicode_decimal cr /\
    resolve_credits cr = Ret kept /\
    py_int unicode_decimal kept = Ret (credits c) /\
    find_description (normalize block) = Ret (description c) /\
    geneds c = extract_geneds unicode_upper (normalize block).
Proof.
  intros Hc.
  assert (Hm : exists rest g,
             re_match (COURSE_RE unicode_decimal) (normalize block)
             = Some (rest, g)).
  { unfold parse_course_block, parse_course_block_body, parse_normalized in Hc.
    destruct (re_match (COURSE_RE unicode_decimal) (normalize block))
      as [[rest g]|]; [eauto | discriminate]. }
  destruct Hm as (rest & g & H).
  destruct (parse_normalized_matched unicode_upper _ _ _ _ H)
    as (pr & ws & d & l & ti & cr & more & kept & desc & Hg & _ & Hpr & Hup
        & _ & _ & Hnum & Hcr & Hkept & Hdesc & Hparse).
  destruct (course_layout _ _ _ _ H)
    as (pr' & ws1 & nu & ws2 & ti' & ws3 & cr' & ws4 & plural & Hg' & Hs
        & Hw1 & Hn1 & Hw2 & Hti & Hnti & Hw3 & Hw4 & Hpl).
  rewrite Hg in Hg'. injection Hg' as <- <- <- <-.
  unfold parse_course_block, parse_course_block_body in Hc.
  rewrite Hparse in Hc.
  destruct (py_int unicode_decimal kept) as [n|] eqn:Hn;
    cbn [bind] in Hc; [|discriminate].
  injection Hc as <-.
  cbn [key prefix number title credits description geneds].
  exists ws1, d, l, ws2, ti, ws3, cr, ws4, plural, rest, kept.
  repeat (split; [assumption || reflexivity|]). reflexivity.
Qed.

(** X3.  The fields of a record put the head of the normalised text back
    together: the prefix, one space, the number, a period, the title (up
    to the whitespace around it), a period, the credit field, the word
    ["Credit"] or ["Credits"] and a period, with at most one space at each
    joint. *)
Theorem record_rebuilds_block (block : str) (c : course) :
  parse_course_block unicode_upper unicode_decimal block = Ret (Some c) ->
  exists sp2 ti sp3 cr sp4 plural rest,
    normalize block
    = prefix c ++ lit " " ++ number c ++ lit "." ++ sp2 ++ ti ++ lit "." ++
      sp3 ++ cr ++ sp4 ++ lit "Credit" ++ plural ++ lit "." ++ rest /\
    title c = strip ti /\ ti <> [] /\
    credit_field unicode_decimal cr /\
    (sp2 = [] \/ sp2 = lit " ") /\
    (sp3 = [] \/ sp3 = lit " ") /\
    (sp4 = [] \/ sp4 = lit " ") /\
    (plural = [] \/ plural = lit "s").
Proof.
  intros Hc.
  destruct (parsed_record block c Hc)
    as (ws1 & d & l & ws2 & ti & ws3 & cr & ws4 & plural & rest & kept & Hs
        & Hw1 & Hn1 & Hw2 & _ & Hnti & Hw3 & Hw4 & Hpl & _ & _ & _ & _ & _
        & Hti & Hcr & _).
  assert (ws1 = lit " ") as ->.
  { destruct (normalize_blank_run block (prefix c) ws1 _ Hs Hw1);
      [congruence | assumption]. }
  exists ws2, ti, ws3, cr, ws4, plural, rest.
  split; [exact Hs|]. split; [exact Hti|]. split; [exact Hnti|].
  split; [exact Hcr|]. split; [|split; [|split; [|exact Hpl]]].
  - apply (normalize_blank_run block
             (prefix c ++ lit " " ++ number c ++ lit ".") ws2
             (ti ++ lit "." ++ ws3 ++ cr ++ ws4 ++ lit "Credit" ++ plural ++
              lit "." ++ rest)); [|exact Hw2].
    rewrite Hs. now rewrite <- !app_assoc.
  - apply (normalize_blank_run block
             (prefix c ++ lit " " ++ number c ++ lit "." ++ ws2 ++ ti ++ lit ".")
             ws3
             (cr ++ ws4 ++ lit "Credit" ++ plural ++ lit "." ++ rest));
      [|exact Hw3].
    rewrite Hs. now rewrite <- !app_assoc.
  - apply (normalize_blank_run block
             (prefix c ++ lit " " ++ number c ++ lit "." ++ ws2 ++ ti ++
              lit "." ++ ws3 ++ cr)
             ws4 (lit "Credit" ++ plural ++ lit "." ++ rest)); [|exact Hw4].
    rewrite Hs. now rewrite <- !app_assoc.
Qed.

End Record.

(** Take a returned record apart, naming every fact [parsed_record]
    gives. *)
Ltac open_record Hc :=
  destruct (parsed_record _ _ _ _ Hc)
    as (ws1 & d & l & ws2 & ti & ws3 & cr & ws4 & plural & rest & kept
        & Htext & Hws1 & Hws1ne & Hws2 & Htinl & Htine & Hws3 & Hws4
        & Hplural & Hprne & Hprup & Hnumber & Hnumtok & Hkey & Htitle
        & Hcrfield & Hkept & Hint & Hdesc & Hgeneds).

(** ** Trimming *)

Lemma lstrip_suffix (s : str) : exists a, s = a ++ lstrip s.
Proof.
  induction s as [|x s [a Ha]]; [exists []; reflexivity|].
  cbn [lstrip]. destruct (is_space x).
  - exists (x :: a). cbn. now rewrite <- Ha.
  - exists []. reflexivity.
Qed.

Lemma rstrip_prefix (s : str) : exists b, s = rstrip s ++ b.
Proof.
  induction s as [|x s [b Hb]]; [exists []; reflexivity|].
  cbn [rstrip]. destruct (rstrip s) as [|y r] eqn:E.
  - cbn [app] in Hb. destruct (is_space x).
    + exists (x :: s). reflexivity.
    + exists s. reflexivity.
  - exists b. cbn [app] in *. now f_equal.
Qed.

Lemma occurs_in_strip (s : str) : occurs_in (strip s) s.
Proof.
  unfold strip. destruct (rstrip_prefix s) as [b Hb].
  destruct (lstrip_suffix (rstrip s)) as [a Ha].
  exists a, b. rewrite app_assoc, <- Ha. exact Hb.
Qed.

Lemma occurs_in_trans (a b c : str) :
  occurs_in a b -> occurs_in b c -> occurs_in a c.
Proof.
  intros (x & y & ->) (u & v & ->). exists (u ++ x), (y ++ v).
  now rewrite <- !app_assoc.
Qed.

Lemma rstrip_idempotent (s : str) : rstrip (rstrip s) = rstrip s.
Proof.
  induction s as [|x s IH]; [reflexivity|].
  cbn [rstrip]. destruct (rstrip s) as [|y r] eqn:E.
  - destruct (is_space x) eqn:Ex; [reflexivity|]. cbn. now rewrite Ex.
  - rewrite rstrip_cons_nonempty; rewrite IH; [reflexivity | discriminate].
Qed.

Lemma rstrip_fixed_lstrip (u : str) : rstrip u = u -> rstrip (lstrip u) = lstrip u.
Proof.
  induction u as [|x u IH]; [auto|]. intros H. cbn [lstrip].
  destruct (is_space x); [|exact H]. apply IH. now apply rstrip_tail in H.
Qed.

Lemma lstrip_idempotent (s : str) : lstrip (lstrip s) = lstrip s.
Proof.
  induction s as [|x s IH]; [reflexivity|].
  cbn [lstrip]. destruct (is_space x) eqn:E; [exact IH|].
  cbn [lstrip]. now rewrite E.
Qed.

Lemma strip_idempotent (s : str) : strip (strip s) = strip s.
Proof.
  unfold strip.
  rewrite (rstrip_fixed_lstrip (rstrip s) (rstrip_idempotent s)).
  apply lstrip_idempotent.
Qed.

Lemma forallb_occurs_in (p : N -> bool) (a s : str) :
  occurs_in a s -> forallb p s = true -> forallb p a = true.
Proof.
  intros (x & y & ->) H. rewrite !forallb_app in H.
  apply andb_true_iff in H as [_ H]. now apply andb_true_iff in H as [H _].
Qed.

Section Fields.
Variable unicode_upper : N -> list N.
Variable unicode_decimal : N -> option N.

(** X4.  The key of a record splits back into its prefix and its number:
    the prefix is the leading run of upper-case letters of the key and the
    number is the rest.  So two records with one key have one prefix and
    one number. *)
Theorem key_splits_back (block : str) (c : course) :
  parse_course_block unicode_upper unicode_decimal block = Ret (Some c) ->
  prefix c = take_while is_upper_AZ (key c) /\
  number c = drop_while is_upper_AZ (key c).
Proof.
  intros Hc.
  open_record Hc.
  assert (Hhead : match number c with
                  | [] => True
                  | x :: _ => is_upper_AZ x = false
                  end).
  { rewrite Hnumber. destruct Hnumtok as (Hd & Hdig & _).
    destruct d as [|x d]; [congruence|]. cbn [app].
    cbn [forallb] in Hdig. apply andb_true_iff in Hdig as [Hx _].
    destruct (is_upper_AZ x) eqn:E; [|reflexivity].
    rewrite (upper_not_decimal unicode_decimal x E) in Hx. discriminate. }
  rewrite Hkey. split.
  - symmetry. now apply take_while_app.
  - symmetry. now apply drop_while_app.
Qed.

(** X5.  The title of a record is trimmed, holds no newline, and is a
    contiguous part of the normalised text of its block. *)
Theorem title_is_trimmed_part (block : str) (c : course) :
  parse_course_block unicode_upper unicode_decimal block = Ret (Some c) ->
  strip (title c) = title c /\
  forallb not_newline (title c) = true /\
  occurs_in (title c) (normalize block).
Proof.
  intros Hc.
  open_record Hc.
  rewrite Htitle. split; [apply strip_idempotent|]. split.
  - exact (forallb_occurs_in _ _ _ (occurs_in_strip ti) Htinl).
  - apply (occurs_in_trans _ ti); [apply occurs_in_strip|].
    exists (prefix c ++ ws1 ++ number c ++ lit "." ++ ws2),
      (lit "." ++ ws3 ++ cr ++ ws4 ++ lit "Credit" ++ plural ++ lit "." ++ rest).
    rewrite Htext. now rewrite <- !app_assoc.
Qed.

End Fields.

(** ** The description as a part of the text *)

Lemma single_spaced_prefix (a b : str) :
  single_spaced (a ++ b) = true -> single_spaced a = true.
Proof.
  induction a as [|x a IH]; [reflexivity|]. intros H.
  destruct a as [|y a]; [reflexivity|].
  cbn [app single_spaced] in *. apply andb_true_iff in H as [H1 H2].
  rewrite H1. now apply IH.
Qed.

Lemma single_spaced_part (d s : str) :
  occurs_in d s -> single_spaced s = true -> single_spaced d = true.
Proof.
  intros (a & b & ->) H. apply single_spaced_suffix in H.
  now apply single_spaced_prefix in H.
Qed.

(** A text with single ordinary spaces only is left as it is by the
    collapse. *)
Lemma squeeze_fixed (d : str) :
  (forall c, In c d -> is_space c = true -> c = ch " ") ->
  single_spaced d = true ->
  forall b,
    (b = true -> match d with [] => True | x :: _ => is_space x = false end) ->
    squeeze b d = d.
Proof.
  induction d as [|x d IH]; intros Hbl Hss b Hb; [reflexivity|].
  assert (Hbl' : forall c, In c d -> is_space c = true -> c = ch " ")
    by (intros c Hc; apply Hbl; now right).
  pose proof (single_spaced_tail _ _ Hss) as Hss'.
  cbn [squeeze]. destruct (is_space x) eqn:Ex.
  - destruct b; [specialize (Hb eq_refl); cbn beta iota in Hb; congruence|].
    rewrite (Hbl x (or_introl eq_refl) Ex). f_equal.
    apply IH; auto. intros _. destruct d as [|y d]; [exact I|].
    exact (single_spaced_no_pair _ _ _ Hss Ex).
  - f_equal. apply IH; auto. discriminate.
Qed.

Lemma until_from_boundary (t : str) : t = until_boundary t ++ from_boundary t.
Proof.
  induction t as [|y t IH]; [reflexivity|].
  cbn [until_boundary from_boundary].
  destruct (boundary_here (y :: t)); [reflexivity|]. cbn [app]. now f_equal.
Qed.

Lemma description_here_occurs (s d : str) :
  description_here s = Some d -> occurs_in d s.
Proof.
  unfold description_here.
  destruct (after_credits_word s) as [t1|] eqn:E; [|discriminate].
  apply after_credits_word_suffix in E as [a ->].
  destruct (drop_while_suffix is_space t1) as [a' Ha'].
  destruct (drop_while is_space t1) as [|x t]; [discriminate|].
  intros [= <-]. exists (a ++ a'), (from_boundary t).
  rewrite Ha' at 1. rewrite (until_from_boundary t) at 1.
  now rewrite <- !app_assoc.
Qed.

Lemma description_raw_occurs (s d : str) :
  description_raw s = Some d -> occurs_in d s.
Proof.
  induction s as [|x s IH]; cbn [description_raw].
  - destruct (description_here []) eqn:E; [|discriminate].
    intros [= <-]. now apply description_here_occurs.
  - destruct (description_here (x :: s)) eqn:E.
    + intros [= <-]. now apply description_here_occurs.
    + intros H. destruct (IH H) as (a & b & ->). exists (x :: a), b.
      reflexivity.
Qed.

Section DescriptionPart.
Variable unicode_upper : N -> list N.
Variable unicode_decimal : N -> option N.

Lemma parsed_description (block : str) (c : course) :
  parse_course_block unicode_upper unicode_decimal block = Ret (Some c) ->
  description c
  = match description_raw (normalize block) with
    | Some d => normalize_spec d
    | None => []
    end.
Proof.
  intros Hc.
  open_record Hc.
  rewrite (find_description_tidy _ (normalize_tidy block)) in Hdesc.
  now injection Hdesc.
Qed.

(** X6.  The description of a record is a contiguous part of the
    normalised text of its block, with no whitespace at its ends and only
    single spaces inside: the parser adds, drops and reorders nothing
    within it. *)
Theorem description_is_trimmed_part (block : str) (c : course) :
  parse_course_block unicode_upper unicode_decimal block = Ret (Some c) ->
  occurs_in (description c) (normalize block) /\
  strip (description c) = description c /\
  single_spaced (description c) = true.
Proof.
  intros Hc. rewrite (parsed_description block c Hc).
  destruct (description_raw (normalize block)) as [d|] eqn:E.
  - apply description_raw_occurs in E.
    assert (Hd : normalize_spec d = strip d).
    { rewrite <- strip_squeeze. f_equal. apply squeeze_fixed.
      - intros x Hx. apply (normalize_blank block).
        destruct E as (a & b & ->). rewrite !in_app_iff. auto.
      - exact (single_spaced_part _ _ E (normalize_single_spaced block)).
      - discriminate. }
    split; [|split].
    + rewrite Hd. exact (occurs_in_trans _ _ _ (occurs_in_strip d) E).
    + rewrite Hd. apply strip_idempotent.
    + apply single_spaced_join, words_are_words.
  - split; [|split]; try reflexivity.
    exists [], (normalize block). reflexivity.
Qed.

End DescriptionPart.

(** ** The credits are a natural number *)

Section CreditsSign.
Variable unicode_upper : N -> list N.
Variable unicode_decimal : N -> option N.

Lemma digits_value_nonneg (s : str) :
  forall acc z,
    (0 <= acc)%Z -> digits_value unicode_decimal acc s = Some z -> (0 <= z)%Z.
Proof.
  induction s as [|x s IH]; cbn [digits_value]; intros acc z Hacc H.
  - now injection H as <-.
  - destruct (decimal_value unicode_decimal x) as [d|]; [|discriminate].
    apply (IH (10 * acc + Z.of_N d)%Z); [lia | exact H].
Qed.

(** X7.  The credits of a record are never negative: the hyphen of a
    range is not read as a sign. *)
Theorem credits_nonnegative (block : str) (c : course) :
  parse_course_block unicode_upper unicode_decimal block = Ret (Some c) ->
  (0 <= credits c)%Z.
Proof.
  intros Hc.
  open_record Hc.
  apply py_int_value in Hint.
  exact (digits_value_nonneg kept 0%Z (credits c) (Z.le_refl 0) Hint).
Qed.

End CreditsSign.

(** ** Normalising twice *)

Lemma words_word_app (w r : str) :
  is_word w ->
  match r with [] => True | y :: _ => is_space y = true end ->
  words (w ++ r) = w :: words r.
Proof.
  intros [Hne Hw] Hr. induction w as [|x w IH]; [congruence|].
  cbn [forallb] in Hw. apply andb_true_iff in Hw as [Hx Hw].
  apply negb_true_iff in Hx. cbn [app words]. rewrite Hx.
  destruct w as [|x' w].
  - cbn [app]. destruct r as [|y r]; [reflexivity|]. now rewrite Hr.
  - cbn [app]. cbn [forallb] in Hw.
    pose proof Hw as Hw'. apply andb_true_iff in Hw' as [Hx' _].
    apply negb_true_iff in Hx'. rewrite Hx'.
    change (x' :: w ++ r) with ((x' :: w) ++ r).
    rewrite IH; [reflexivity | discriminate | exact Hw].
Qed.

Lemma words_join (ws : list str) :
  Forall is_word ws -> words (join (lit " ") ws) = ws.
Proof.
  induction ws as [|w ws IH]; intros Hall; [reflexivity|].
  inversion Hall as [|? ? Hw Hws]; subst. specialize (IH Hws).
  destruct ws as [|w' ws].
  - rewrite join_cons. cbn [flat_map]. rewrite app_nil_r.
    rewrite <- (app_nil_r w) at 1. now rewrite words_word_app.
  - rewrite join_cons_cons. rewrite words_word_app; [|exact Hw | reflexivity].
    f_equal. exact IH.
Qed.

Section Idempotence.
Variable unicode_upper : N -> list N.
Variable unicode_decimal : N -> option N.

(** X8.  Normalising keeps the words of the text and changes nothing in a
    text that is normalised already; so the parser gives the same result
    on a block and on its normalised text. *)
Theorem normalize_idempotent (text : str) :
  words (normalize text) = words text /\
  normalize (normalize text) = normalize text /\
  parse_course_block unicode_upper unicode_decimal (normalize text)
  = parse_course_block unicode_upper unicode_decimal text.
Proof.
  assert (Hw : words (normalize text) = words text).
  { rewrite normalize_spec_eq. apply words_join, words_are_words. }
  assert (Hn : normalize (normalize text) = normalize text).
  { rewrite (normalize_spec_eq (normalize text)). unfold normalize_spec.
    rewrite Hw. symmetry. apply normalize_spec_eq. }
  split; [exact Hw|]. split; [exact Hn|].
  unfold parse_course_block, parse_course_block_body. now rewrite Hn.
Qed.

End Idempotence.

(** ** The tags and the text *)

Lemma nodupb_sound (l : list str) : nodupb l = true -> NoDup l.
Proof.
  induction l as [|x l IH]; cbn [nodupb]; intros H; constructor.
  - apply andb_true_iff in H as [H _]. apply negb_true_iff in H.
    intros Hin. assert (existsb (str_eqb x) l = true); [|congruence].
    apply existsb_exists. exists x. split; [exact Hin | apply str_eqb_refl].
  - apply IH. now apply andb_true_iff in H as [_ H].
Qed.

Lemma vocabulary_nodup : NoDup GENED_PATTERNS.
Proof. apply nodupb_sound. vm_compute. reflexivity. Qed.

Section TagsAndText.
Variable unicode_upper : N -> list N.

Lemma str_upper_app (a b : str) :
  str_upper unicode_upper (a ++ b)
  = str_upper unicode_upper a ++ str_upper unicode_upper b.
Proof. apply flat_map_app. Qed.

Lemma occurs_in_upper (p s : str) :
  occurs_in p s ->
  occurs_in (str_upper unicode_upper p) (str_upper unicode_upper s).
Proof.
  intros (a & b & ->). rewrite !str_upper_app. eexists _, _. reflexivity.
Qed.

(** X9.  A tag is reported at most once, and a text reports every tag that
    a part of it reports: text before or after a tag never hides it. *)
Theorem geneds_of_part (part text : str) :
  occurs_in part text ->
  NoDup (extract_geneds unicode_upper text) /\
  forall tag,
    In tag (extract_geneds unicode_upper part) ->
    In tag (extract_geneds unicode_upper text).
Proof.
  intros Hpart. rewrite !extract_geneds_filter. split.
  - apply NoDup_filter, vocabulary_nodup.
  - intros tag. rewrite !filter_In, !contains_iff. intros [Hv Hocc].
    split; [exact Hv|].
    exact (occurs_in_trans _ _ _ Hocc (occurs_in_upper _ _ Hpart)).
Qed.

Lemma upper_char_same_letter (a b : N) :
  ascii_lower a = ascii_lower b ->
  upper_char unicode_upper a = upper_char unicode_upper b.
Proof.
  unfold ascii_lower, is_upper_AZ. intros H.
  assert (Hcases : a = b \/
                   (65 <= a /\ a <= 90 /\ b = a + 32) \/
                   (65 <= b /\ b <= 90 /\ a = b + 32)).
  { destruct (N.leb_spec 65 a), (N.leb_spec a 90), (N.leb_spec 65 b),
      (N.leb_spec b 90); cbn [andb] in H; lia. }
  assert (Hletter : forall x, 65 <= x -> x <= 90 ->
                      upper_char unicode_upper x = [x] /\
                      upper_char unicode_upper (x + 32) = [x]).
  { intros x H1 H2. unfold upper_char.
    replace (x <? 128) with true by (symmetry; apply N.ltb_lt; lia).
    replace (x + 32 <? 128) with true by (symmetry; apply N.ltb_lt; lia).
    replace (97 <=? x) with false by (symmetry; apply N.leb_gt; lia).
    replace (97 <=? x + 32) with true by (symmetry; apply N.leb_le; lia).
    replace (x + 32 <=? 122) with true by (symmetry; apply N.leb_le; lia).
    cbn [andb]. now rewrite N.add_sub. }
  destruct Hcases as [-> | [(H1 & H2 & ->) | (H1 & H2 & ->)]]; [reflexivity| |];
    destruct (Hletter _ H1 H2) as [E1 E2]; congruence.
Qed.

(** X10.  The case of the ASCII letters of a text does not count: two
    texts that differ in it only report the same tags. *)
Theorem geneds_ignore_ascii_case (text1 text2 : str) :
  Forall2 (fun a b => ascii_lower a = ascii_lower b) text1 text2 ->
  extract_geneds unicode_upper text1 = extract_geneds unicode_upper text2.
Proof.
  intros H.
  assert (Hup : str_upper unicode_upper text1 = str_upper unicode_upper text2).
  { induction H as [|a b t1 t2 Hab _ IH]; [reflexivity|].
    cbn [str_upper flat_map]. fold (str_upper unicode_upper t1).
    fold (str_upper unicode_upper t2).
    now rewrite (upper_char_same_letter a b Hab), IH. }
  rewrite !extract_geneds_filter. now rewrite Hup.
Qed.

End TagsAndText.

(** The hypothesis of X9 holds for a sentence inside a block. *)
Lemma geneds_of_part_witness :
  occurs_in (lit "Gen Ed: FC-LAB.") (lit "BIOL 101L. Lab. 1 Credit. Gen Ed: FC-LAB. Grading Status: Letter") /\
  In (lit "FC-LAB")
     (extract_geneds plain_upper
        (lit "BIOL 101L. Lab. 1 Credit. Gen Ed: FC-LAB. Grading Status: Letter")).
Proof.
  assert (H : occurs_in (lit "Gen Ed: FC-LAB.")
                (lit "BIOL 101L. Lab. 1 Credit. Gen Ed: FC-LAB. Grading Status: Letter"))
    by (exists (lit "BIOL 101L. Lab. 1 Credit. "), (lit " Grading Status: Letter");
        reflexivity).
  split; [exact H|].
  apply (proj2 (geneds_of_part plain_upper _ _ H)).
  vm_compute. auto.
Defined.

(** The hypothesis of X10 holds for a tag in lower and in upper case. *)
Lemma geneds_ignore_ascii_case_witness :
  Forall2 (fun a b => ascii_lower a = ascii_lower b)
    (lit "fc-quant") (lit "FC-Quant") /\
  extract_geneds plain_upper (lit "fc-quant")
  = extract_geneds plain_upper (lit "FC-Quant").
Proof.
  assert (H : Forall2 (fun a b => ascii_lower a = ascii_lower b)
                (lit "fc-quant") (lit "FC-Quant"))
    by (repeat constructor).
  split; [exact H|].
  exact (geneds_ignore_ascii_case plain_upper _ _ H).
Defined.

(** ** A department page *)

Section Department.
Variable unicode_upper : N -> list N.
Variable unicode_decimal : N -> option N.
Variable get_soup : str -> res (list str).

Lemma parse_blocks_records (blocks : list str) :
  parse_blocks unicode_upper unicode_decimal blocks
  = Ret (block_records unicode_upper unicode_decimal blocks).
Proof.
  induction blocks as [|b blocks IH]; [reflexivity|].
  cbn [parse_blocks block_records flat_map].
  fold (block_records unicode_upper unicode_decimal blocks). rewrite IH.
  destruct (parse_course_block unicode_upper unicode_decimal b)
    as [[c|]|e] eqn:E; cbn [bind app]; try reflexivity.
  unfold parse_course_block in E.
  destruct (parse_course_block_body unicode_upper unicode_decimal b);
    discriminate.
Qed.

Lemma block_records_length (blocks : list str) :
  (length (block_records unicode_upper unicode_decimal blocks)
   <= length blocks)%nat.
Proof.
  induction blocks as [|b blocks IH]; [apply Nat.le_refl|].
  cbn [block_records flat_map].
  fold (block_records unicode_upper unicode_decimal blocks).
  rewrite length_app. cbn [length].
  destruct (parse_course_block unicode_upper unicode_decimal b) as [[c|]|e];
    cbn [length]; lia.
Qed.

(** X11.  When the page of a department is fetched, the department gives
    the records of its blocks in the order of the page: a block that gives
    no record is passed over and stops nothing, so there are at most as
    many records as blocks, and the blocks of two pages put together give
    the records of the first followed by those of the second. *)
Theorem scrape_department_records (dept : str) (blocks : list str) :
  get_soup (COURSES_URL ++ dept ++ lit "/") = Ret blocks ->
  scrape_department unicode_upper unicode_decimal get_soup dept
  = block_records unicode_upper unicode_decimal blocks /\
  (length (scrape_department unicode_upper unicode_decimal get_soup dept)
   <= length blocks)%nat /\
  forall before after,
    block_records unicode_upper unicode_decimal (before ++ after)
    = block_records unicode_upper unicode_decimal before ++
      block_records unicode_upper unicode_decimal after.
Proof.
  intros H.
  assert (Hd : scrape_department unicode_upper unicode_decimal get_soup dept
               = block_records unicode_upper unicode_decimal blocks).
  { unfold scrape_department. rewrite H. cbn [bind].
    now rewrite parse_blocks_records. }
  split; [exact Hd|]. split.
  - rewrite Hd. apply block_records_length.
  - intros before after. apply flat_map_app.
Qed.

End Department.

(** The hypothesis of X11 holds for the page with a heading between two
    courses. *)
Lemma scrape_department_records_witness :
  example_soup (COURSES_URL ++ lit "comp" ++ lit "/")
  = Ret [lit "COMP 110. Introduction to Programming. 3 Credits. An introduction. Gen Ed: FC-QUANT.";
         lit "Courses";
         lit "COMP 393. Practicum. 1-3 Credits."] /\
  map key (scrape_department plain_upper plain_decimal example_soup (lit "comp"))
  = [lit "COMP110"; lit "COMP393"].
Proof.
  assert (H : example_soup (COURSES_URL ++ lit "comp" ++ lit "/")
              = Ret [lit "COMP 110. Introduction to Programming. 3 Credits. An introduction. Gen Ed: FC-QUANT.";
                     lit "Courses";
                     lit "COMP 393. Practicum. 1-3 Credits."])
    by (vm_compute; reflexivity).
  split; [exact H|].
  rewrite (proj1 (scrape_department_records plain_upper plain_decimal
                    example_soup (lit "comp") _ H)).
  vm_compute. reflexivity.
Defined.

(** ** The catalog as one sequence of records *)

Lemma store_courses_keys (cs : list course) :
  forall all,
    dict_keys (store_courses cs all)
    = dict_keys all ++ first_occurrences (dict_keys all) (map key cs).
Proof.
  induction cs as [|c cs IH]; intros all.
  - cbn. now rewrite app_nil_r.
  - change (store_courses (c :: cs) all)
      with (store_courses cs (dict_set (key c) (snd (pop_key c)) all)).
    rewrite IH, dict_set_keys. cbn [map first_occurrences].
    destruct (existsb (fun k' => str_eqb k' (key c)) (dict_keys all));
      [reflexivity|].
    now rewrite <- app_assoc.
Qed.

Lemma dict_set_length (k : str) (v : entry) (d : dict) :
  (length (dict_set k v d) <= S (length d))%nat.
Proof.
  induction d as [|[k' v'] d IH]; cbn [dict_set length]; [lia|].
  destruct (str_eqb k' k); cbn [length]; lia.
Qed.

Lemma store_courses_length (cs : list course) :
  forall all, (length (store_courses cs all) <= length all + length cs)%nat.
Proof.
  induction cs as [|c cs IH]; intros all; [cbn; lia|].
  change (store_courses (c :: cs) all)
    with (store_courses cs (dict_set (key c) (snd (pop_key c)) all)).
  pose proof (IH (dict_set (key c) (snd (pop_key c)) all)) as H.
  pose proof (dict_set_length (key c) (snd (pop_key c)) all) as H'.
  cbn [length]. lia.
Qed.

Section CatalogOrder.
Variable unicode_upper : N -> list N.
Variable unicode_decimal : N -> option N.
Variable get_soup : str -> res (list str).

(** X12.  The loop over the departments stores the records of all the
    departments as one sequence, and the keys of the catalog, which is the
    order of the output file, are the codes of that sequence at their
    first places: a code scraped again keeps the place of its first
    record. *)
Theorem catalog_in_first_seen_order (depts : list str) :
  (forall all,
     scrape_all unicode_upper unicode_decimal get_soup depts all
     = store_courses
         (flat_map (scrape_department unicode_upper unicode_decimal get_soup)
            depts)
         all) /\
  dict_keys (scrape_all unicode_upper unicode_decimal get_soup depts [])
  = first_occurrences []
      (map key
         (flat_map (scrape_department unicode_upper unicode_decimal get_soup)
            depts)).
Proof.
  split; [apply scrape_all_flat|].
  rewrite scrape_all_flat. apply (store_courses_keys _ []).
Qed.

(** X13.  Of the numbers [main] prints, the count of courses with tags is
    at most the total, and the total is at most the sum of the counts of
    the departments: a code met twice is counted once in the total. *)
Theorem summary_counts (depts : list str) :
  (gened_count (scrape_all unicode_upper unicode_decimal get_soup depts [])
   <= length (scrape_all unicode_upper unicode_decimal get_soup depts []))%nat /\
  (length (scrape_all unicode_upper unicode_decimal get_soup depts [])
   <= list_sum
        (map (fun dept =>
                length (scrape_department unicode_upper unicode_decimal
                          get_soup dept))
           depts))%nat.
Proof.
  split; [apply filter_length_le|].
  rewrite scrape_all_flat.
  pose proof (store_courses_length
                (flat_map (scrape_department unicode_upper unicode_decimal
                             get_soup) depts) []) as H.
  cbn [length] in H.
  assert (Hsum : length (flat_map (scrape_department unicode_upper
                                     unicode_decimal get_soup) depts)
                 = list_sum (map (fun dept =>
                                    length (scrape_department unicode_upper
                                              unicode_decimal get_soup dept))
                               depts)).
  { clear H. induction depts as [|d ds IH]; [reflexivity|].
    cbn [flat_map map list_sum]. now rewrite length_app, IH. }
  lia.
Qed.

(** X15.  When the fetch of every department of the list fails, [main]
    still writes its two files, and each holds the empty object. *)
Theorem main_without_pages :
  (forall dept, In dept ARTS_SCIENCES_DEPTS ->
     exists e, get_soup (COURSES_URL ++ dept ++ lit "/") = Raise e) ->
  main unicode_upper unicode_decimal get_soup = (lit "{}", lit "{}").
Proof.
  intros H. unfold main.
  assert (Hall : forall depts,
            (forall dept, In dept depts ->
               exists e, get_soup (COURSES_URL ++ dept ++ lit "/") = Raise e) ->
            scrape_all unicode_upper unicode_decimal get_soup depts [] = []).
  { induction depts as [|d ds IH]; intros Hd; [reflexivity|].
    change (scrape_all unicode_upper unicode_decimal get_soup (d :: ds) [])
      with (scrape_all unicode_upper unicode_decimal get_soup ds
              (store_courses
                 (scrape_department unicode_upper unicode_decimal get_soup d)
                 [])).
    destruct (Hd d (or_introl eq_refl)) as [e He].
    unfold scrape_department at 1. rewrite He. cbn [bind try_except].
    apply IH. intros dept Hin. apply Hd. now right. }
  rewrite (Hall _ H). reflexivity.
Qed.

End CatalogOrder.

(** The hypothesis of X15 holds on a site where no page answers. *)
Lemma main_without_pages_witness :
  (forall dept, In dept ARTS_SCIENCES_DEPTS ->
     exists e, offline_soup (COURSES_URL ++ dept ++ lit "/") = Raise e) /\
  main plain_upper plain_decimal offline_soup = (lit "{}", lit "{}").
Proof.
  assert (H : forall dept, In dept ARTS_SCIENCES_DEPTS ->
                exists e, offline_soup (COURSES_URL ++ dept ++ lit "/") = Raise e)
    by (intros dept _; exists RequestException; reflexivity).
  split; [exact H|].
  exact (main_without_pages plain_upper plain_decimal offline_soup H).
Defined.

(** ** The characters of the output *)

Lemma hex_digit_safe (n : N) : n < 16 -> json_safe (hex_digit n) = true.
Proof.
  intros H. unfold hex_digit, json_safe.
  destruct (N.ltb_spec n 10).
  - replace (32 <=? 48 + n) with true by (symmetry; apply N.leb_le; lia).
    replace (48 + n <=? 126) with true by (symmetry; apply N.leb_le; lia).
    reflexivity.
  - replace (32 <=? 87 + n) with true by (symmetry; apply N.leb_le; lia).
    replace (87 + n <=? 126) with true by (symmetry; apply N.leb_le; lia).
    reflexivity.
Qed.

Lemma u_escape_safe (n : N) : forallb json_safe (u_escape n) = true.
Proof.
  unfold u_escape. cbn [forallb].
  rewrite !hex_digit_safe by (apply N.mod_lt; discriminate). reflexivity.
Qed.

Lemma json_char_safe (c : N) : forallb json_safe (json_char c) = true.
Proof.
  unfold json_char.
  repeat match goal with
    | |- context [if ?b then _ else _] =>
        lazymatch b with
        | (_ =? _) => destruct b; [reflexivity|]
        end
    end.
  destruct ((32 <=? c) && (c <=? 126)) eqn:E.
  - cbn [forallb]. unfold json_safe. now rewrite E.
  - destruct (c <? 65536); [apply u_escape_safe|].
    cbv zeta. rewrite forallb_app, !u_escape_safe. reflexivity.
Qed.

Lemma forallb_flat_map {A : Type} (p : N -> bool) (f : A -> str) (l : list A) :
  (forall x, forallb p (f x) = true) -> forallb p (flat_map f l) = true.
Proof.
  intros H. induction l as [|x l IH]; [reflexivity|].
  cbn [flat_map]. now rewrite forallb_app, H, IH.
Qed.

Lemma json_string_safe (s : str) : forallb json_safe (json_string s) = true.
Proof.
  unfold json_string. rewrite !forallb_app.
  rewrite (forallb_flat_map json_safe json_char s json_char_safe).
  reflexivity.
Qed.

Lemma decimal_digits_safe (d : Decimal.uint) :
  forallb json_safe (lit (NilEmpty.string_of_uint d)) = true.
Proof.
  induction d; [reflexivity|..];
    cbn [NilEmpty.string_of_uint lit list_ascii_of_string map forallb];
    fold (lit (NilEmpty.string_of_uint d)); rewrite IHd; reflexivity.
Qed.

Lemma lit_cons (a : ascii) (s : string) :
  lit (String a s) = N_of_ascii a :: lit s.
Proof. reflexivity. Qed.

Lemma decimal_string_safe (d : Decimal.uint) :
  forallb json_safe (lit (NilZero.string_of_uint d)) = true.
Proof.
  unfold NilZero.string_of_uint. destruct d; [reflexivity|..];
    apply decimal_digits_safe.
Qed.

Lemma json_int_safe (z : Z) : forallb json_safe (json_int z) = true.
Proof.
  unfold json_int.
  destruct (Z.to_int z) as [d|d]; cbn [NilZero.string_of_int].
  - apply decimal_string_safe.
  - rewrite lit_cons. cbn [forallb]. now rewrite decimal_string_safe.
Qed.

Lemma newline_indent_safe (n : nat) :
  forallb json_safe (newline_indent n) = true.
Proof.
  unfold newline_indent. cbn [forallb].
  induction n as [|n IH]; [reflexivity|]. cbn [repeat forallb]. exact IH.
Qed.

Lemma join_safe (sep : str) (l : list str) :
  forallb json_safe sep = true ->
  Forall (fun x => forallb json_safe x = true) l ->
  forallb json_safe (join sep l) = true.
Proof.
  intros Hsep Hl. destruct Hl as [|w ws Hw Hws]; [reflexivity|].
  unfold join. rewrite forallb_app, Hw. cbn [andb].
  induction Hws as [|x xs Hx _ IH]; [reflexivity|].
  cbn [flat_map]. now rewrite !forallb_app, Hsep, Hx, IH.
Qed.

Lemma json_array_safe (level : nat) (items : list str) :
  Forall (fun x => forallb json_safe x = true) items ->
  forallb json_safe (json_array level items) = true.
Proof.
  intros H. unfold json_array. destruct items as [|i items]; [reflexivity|].
  rewrite !forallb_app, !newline_indent_safe.
  rewrite join_safe; [reflexivity| |exact H].
  rewrite forallb_app, newline_indent_safe. reflexivity.
Qed.

Lemma json_object_safe (level : nat) (members : list (str * str)) :
  Forall (fun m => forallb json_safe (snd m) = true) members ->
  forallb json_safe (json_object level members) = true.
Proof.
  intros H. unfold json_object. destruct members as [|m members]; [reflexivity|].
  rewrite !forallb_app, !newline_indent_safe.
  rewrite join_safe; [reflexivity| |].
  - rewrite forallb_app, newline_indent_safe. reflexivity.
  - apply Forall_map. revert H. apply Forall_impl. intros x Hx.
    now rewrite !forallb_app, json_string_safe, Hx.
Qed.

Lemma json_entry_safe (level : nat) (e : entry) :
  forallb json_safe (json_entry level e) = true.
Proof.
  unfold json_entry. apply json_object_safe.
  repeat constructor; cbn [snd];
    try apply json_string_safe; try apply json_int_safe.
  apply json_array_safe, Forall_map, Forall_forall.
  intros x _. apply json_string_safe.
Qed.

(** *** Reading the strings back *)

Lemma hex_value_digit (k : N) : k < 16 -> hex_value (hex_digit k) = Some k.
Proof.
  intros H. unfold hex_digit, hex_value.
  destruct (N.ltb_spec k 10).
  - replace ((48 <=? 48 + k) && (48 + k <=? 57)) with true.
    + f_equal. lia.
    + symmetry. apply andb_true_iff. split; apply N.leb_le; lia.
  - replace ((48 <=? 87 + k) && (87 + k <=? 57)) with false.
    + replace ((97 <=? 87 + k) && (87 + k <=? 102)) with true.
      * f_equal. lia.
      * symmetry. apply andb_true_iff. split; apply N.leb_le; lia.
    + symmetry. apply andb_false_iff. right. apply N.leb_gt. lia.
Qed.

Lemma hex4_digits (n : N) :
  n < 65536 ->
  hex4 (hex_digit (n / 4096 mod 16)) (hex_digit (n / 256 mod 16))
       (hex_digit (n / 16 mod 16)) (hex_digit (n mod 16)) = Some n.
Proof.
  intros H. unfold hex4.
  rewrite !hex_value_digit by (apply N.mod_lt; discriminate).
  f_equal.
  assert (H1 : n / 256 = n / 16 / 16) by (now rewrite N.Div0.div_div).
  assert (H2 : n / 4096 = n / 256 / 16) by (now rewrite N.Div0.div_div).
  assert (H3 : n / 4096 < 16) by (apply N.Div0.div_lt_upper_bound; lia).
  rewrite (N.mod_small _ _ H3).
  pose proof (N.div_mod n 16). pose proof (N.div_mod (n / 16) 16).
  pose proof (N.div_mod (n / 256) 16). lia.
Qed.


Lemma json_units_escape (n : N) (rest : str) :
  n < 65536 ->
  json_units (u_escape n ++ rest) = cons_unit (Some n) (json_units rest).
Proof.
  intros H. unfold u_escape. cbn [app json_units].
  rewrite (N.eqb_refl 92), (N.eqb_refl 117). now rewrite hex4_digits.
Qed.

Lemma json_char_cases (c : N) :
  (json_plain c = true /\ json_char c = [c]) \/
  (json_plain c = false /\
   ((exists x, short_escape x = Some c /\ x <> 47 /\ json_char c = [92; x]) \/
    (c < 65536 /\ json_char c = u_escape c) \/
    (65536 <= c /\
     json_char c
     = u_escape (55296 + (c - 65536) / 1024)
       ++ u_escape (56320 + (c - 65536) mod 1024)))).
Proof.
  unfold json_char, json_plain.
  destruct (N.eqb_spec c 34) as [->|H34];
    [right; split; [reflexivity|]; left; exists 34; repeat split; discriminate|].
  destruct (N.eqb_spec c 92) as [->|H92];
    [right; split; [reflexivity|]; left; exists 92; repeat split; discriminate|].
  destruct (N.eqb_spec c 10) as [->|H10];
    [right; split; [reflexivity|]; left; exists 110; repeat split; discriminate|].
  destruct (N.eqb_spec c 13) as [->|H13];
    [right; split; [reflexivity|]; left; exists 114; repeat split; discriminate|].
  destruct (N.eqb_spec c 9) as [->|H9];
    [right; split; [reflexivity|]; left; exists 116; repeat split; discriminate|].
  destruct (N.eqb_spec c 12) as [->|H12];
    [right; split; [reflexivity|]; left; exists 102; repeat split; discriminate|].
  destruct (N.eqb_spec c 8) as [->|H8];
    [right; split; [reflexivity|]; left; exists 98; repeat split; discriminate|].
  cbn [negb]. rewrite !andb_true_r.
  destruct ((32 <=? c) && (c <=? 126)) eqn:E; [left; auto|].
  right. split; [reflexivity|]. right.
  destruct (N.ltb_spec c 65536); [left; auto | right; auto].
Qed.

Lemma json_units_char (c : N) (rest : str) :
  c < 1114112 ->
  json_units (json_char c ++ rest)
  = match json_units rest with
    | Some u => Some (utf16 c ++ u)
    | None => None
    end.
Proof.
  intros Hc.
  destruct (json_char_cases c)
    as [[Hp ->] | [Hp [(x & Hx & Hx47 & ->) | [[Hlt ->] | [Hge ->]]]]].
  - unfold json_plain in Hp.
    apply andb_true_iff in Hp as [Hp H92]. apply andb_true_iff in Hp as [Hp H34].
    apply andb_true_iff in Hp as [Hlo Hhi].
    apply negb_true_iff in H92, H34. apply N.leb_le in Hlo, Hhi.
    cbn [app json_units]. rewrite H92, H34.
    replace (c <? 32) with false by (symmetry; apply N.ltb_ge; lia).
    unfold utf16.
    replace (c <? 65536) with true by (symmetry; apply N.ltb_lt; lia).
    cbn [orb cons_unit app]. destruct (json_units rest); reflexivity.
  - cbn [app json_units]. rewrite (N.eqb_refl 92).
    assert (H117 : (x =? 117) = false).
    { destruct (N.eqb_spec x 117) as [->|]; [discriminate | reflexivity]. }
    rewrite H117, Hx. unfold utf16.
    assert (Hs : c < 65536).
    { unfold short_escape in Hx.
      repeat match type of Hx with
             | (if ?b then _ else _) = _ =>
                 destruct b; [injection Hx as <-; reflexivity|]
             end.
      discriminate. }
    apply N.ltb_lt in Hs. rewrite Hs. cbn [cons_unit app].
    destruct (json_units rest); reflexivity.
  - rewrite json_units_escape by exact Hlt. unfold utf16.
    apply N.ltb_lt in Hlt. rewrite Hlt. cbn [cons_unit app].
    destruct (json_units rest); reflexivity.
  - assert (Hq : (c - 65536) / 1024 < 1024)
      by (apply N.Div0.div_lt_upper_bound; lia).
    assert (Hr : (c - 65536) mod 1024 < 1024) by (apply N.mod_lt; discriminate).
    rewrite <- app_assoc, !json_units_escape by lia. unfold utf16.
    replace (c <? 65536) with false by (symmetry; apply N.ltb_ge; lia).
    cbn [cons_unit app]. destruct (json_units rest); reflexivity.
Qed.

Lemma json_units_string (s : str) :
  Forall (fun c => c < 1114112) s ->
  json_units (flat_map json_char s) = Some (flat_map utf16 s).
Proof.
  induction 1 as [|c s Hc _ IH]; [reflexivity|].
  cbn [flat_map]. now rewrite json_units_char, IH.
Qed.

Lemma pair_utf16 (c : N) (u : str) :
  is_scalar c = true ->
  pair_surrogates (utf16 c ++ u) = c :: pair_surrogates u.
Proof.
  intros Hc. unfold is_scalar in Hc. unfold utf16.
  destruct (N.ltb_spec c 65536) as [Hlt|Hge]; cbn [app pair_surrogates].
  - destruct u as [|l r]; [reflexivity|].
    replace (is_high c) with false; [reflexivity|].
    symmetry. unfold is_high.
    apply orb_true_iff in Hc as [Hc | Hc].
    + apply N.ltb_lt in Hc. apply andb_false_iff. left. apply N.leb_gt. lia.
    + apply andb_true_iff in Hc as [Hc _]. apply N.ltb_lt in Hc.
      apply andb_false_iff. right. apply N.ltb_ge. lia.
  - assert (Hmax : c < 1114112).
    { apply orb_true_iff in Hc as [Hc | Hc].
      - apply N.ltb_lt in Hc. lia.
      - apply andb_true_iff in Hc as [_ Hc]. now apply N.ltb_lt in Hc. }
    assert (Hq : (c - 65536) / 1024 < 1024)
      by (apply N.Div0.div_lt_upper_bound; lia).
    assert (Hr : (c - 65536) mod 1024 < 1024) by (apply N.mod_lt; discriminate).
    pose proof (N.div_mod (c - 65536) 1024 ltac:(discriminate)) as Hdm.
    clear Hc.
    set (q := (c - 65536) / 1024) in *. set (r := (c - 65536) mod 1024) in *.
    clearbody q r.
    replace (is_high (55296 + q)) with true.
    + replace (is_low (56320 + r)) with true.
      * cbn [andb]. f_equal. lia.
      * symmetry. unfold is_low. apply andb_true_iff.
        split; [apply N.leb_le | apply N.ltb_lt]; lia.
    + symmetry. unfold is_high. apply andb_true_iff.
      split; [apply N.leb_le | apply N.ltb_lt]; lia.
Qed.

Lemma pair_utf16_string (s : str) :
  forallb is_scalar s = true -> pair_surrogates (flat_map utf16 s) = s.
Proof.
  induction s as [|c s IH]; [reflexivity|].
  cbn [forallb flat_map]. intros H. apply andb_true_iff in H as [Hc Hs].
  now rewrite pair_utf16, IH.
Qed.

Lemma is_scalar_valid (s : str) :
  forallb is_scalar s = true -> Forall (fun c => c < 1114112) s.
Proof.
  intros H. apply Forall_forall. intros c Hin.
  apply (proj1 (forallb_forall _ _) H) in Hin. unfold is_scalar in Hin.
  apply orb_true_iff in Hin as [Hc | Hc].
  - apply N.ltb_lt in Hc. lia.
  - apply andb_true_iff in Hc as [_ Hc]. now apply N.ltb_lt in Hc.
Qed.

Lemma json_read_string_units (s : str) :
  json_read_string (json_string s)
  = option_map pair_surrogates (json_units (flat_map json_char s)).
Proof.
  unfold json_string, json_read_string. cbn [app].
  rewrite rev_app_distr. cbn [rev app]. now rewrite rev_involutive.
Qed.

Lemma json_string_read_back (s : str) :
  forallb is_scalar s = true -> json_read_string (json_string s) = Some s.
Proof.
  intros H. rewrite json_read_string_units.
  rewrite json_units_string by (now apply is_scalar_valid).
  cbn [option_map]. now rewrite pair_utf16_string.
Qed.

(** *** Where the strings are in the output *)

Lemma join_occurs (sep x : str) (l : list str) :
  In x l -> occurs_in x (join sep l).
Proof.
  destruct l as [|w ws]; [intros []|]. unfold join. intros [<- | Hin].
  - exists [], (flat_map (fun y => sep ++ y) ws). reflexivity.
  - assert (H : occurs_in x (flat_map (fun y => sep ++ y) ws)).
    { induction ws as [|y ws IH]; [destruct Hin|]. cbn [flat_map].
      destruct Hin as [<- | Hin].
      - exists sep, (flat_map (fun y => sep ++ y) ws). now rewrite <- app_assoc.
      - destruct (IH Hin) as (a & b & ->). exists ((sep ++ y) ++ a), b.
        now rewrite <- !app_assoc. }
    destruct H as (a & b & ->). exists (w ++ a), b. now rewrite <- app_assoc.
Qed.

Lemma json_object_member (level : nat) (members : list (str * str))
      (m : str * str) :
  In m members ->
  occurs_in (json_string (fst m) ++ lit ": " ++ snd m)
    (json_object level members).
Proof.
  intros Hin. destruct members as [|m0 ms]; [destruct Hin|].
  apply (in_map (fun m => json_string (fst m) ++ lit ": " ++ snd m)) in Hin.
  apply (join_occurs (lit "," ++ newline_indent (level + 2))) in Hin.
  destruct Hin as (a & b & Hj). unfold json_object. rewrite Hj.
  exists (lit "{" ++ newline_indent (level + 2) ++ a),
         (b ++ newline_indent level ++ lit "}").
  now rewrite <- !app_assoc.
Qed.

Lemma json_dump_member (d : dict) (k : str) (e : entry) (name value : str) :
  In (k, e) d ->
  In (name, value)
    [(lit "prefix", json_string (e_prefix e));
     (lit "number", json_string (e_number e));
     (lit "title", json_string (e_title e));
     (lit "credits", json_int (e_credits e));
     (lit "description", json_string (e_description e));
     (lit "geneds", json_array 4 (map json_string (e_geneds e)))] ->
  occurs_in (json_string name ++ lit ": " ++ value) (json_dump d).
Proof.
  intros Hin Hm.
  apply occurs_in_trans with (b := json_entry 2 e).
  - exact (json_object_member 2 _ (name, value) Hm).
  - apply occurs_in_trans
      with (b := json_string k ++ lit ": " ++ json_entry 2 e).
    + exists (json_string k ++ lit ": "), []. now rewrite app_nil_r, <- app_assoc.
    + unfold json_dump.
      apply (json_object_member 0 _ (k, json_entry 2 e)).
      apply (in_map (fun kv => (fst kv, json_entry 2 (snd kv))) d (k, e)), Hin.
Qed.

Lemma json_dump_key (d : dict) (k : str) (e : entry) :
  In (k, e) d ->
  occurs_in (json_string k ++ lit ": " ++ json_entry 2 e) (json_dump d).
Proof.
  intros Hin. unfold json_dump.
  apply (json_object_member 0 _ (k, json_entry 2 e)).
  apply (in_map (fun kv => (fst kv, json_entry 2 (snd kv))) d (k, e)), Hin.
Qed.

Lemma json_char_plain (c : N) :
  (json_plain c = true -> json_char c = [c]) /\
  (json_plain c = false -> exists x rest, json_char c = 92 :: x :: rest).
Proof.
  destruct (json_char_cases c)
    as [[Hp E] | [Hp [(x & _ & _ & E) | [[_ E] | [_ E]]]]];
    rewrite Hp, E; (split; [try discriminate; auto | try discriminate; intros _]);
    unfold u_escape; cbn [app]; eauto.
Qed.

(** X14.  Whatever the text of the courses, the output holds printable
    ASCII characters and newlines only, and no text is lost to that: the
    key of every entry, and its title and its description after their
    names, are in the output as quoted strings; in a quoted string a
    printable ASCII character other than the quote and the backslash
    stands for itself and every other character is written as an escape
    that starts with a backslash; and reading a quoted string back by the
    rules of JSON gives the text it was written from, for every text of
    Unicode scalar values. *)
Theorem json_dump_ascii (d : dict) :
  forallb json_safe (json_dump d) = true /\
  (forall k e, In (k, e) d ->
     occurs_in (json_string k ++ lit ": " ++ json_entry 2 e) (json_dump d) /\
     occurs_in (json_string (lit "title") ++ lit ": " ++ json_string (e_title e))
       (json_dump d) /\
     occurs_in
       (json_string (lit "description") ++ lit ": "
        ++ json_string (e_description e))
       (json_dump d)) /\
  (forall s, json_string s = [34] ++ flat_map json_char s ++ [34]) /\
  (forall c,
     (json_plain c = true -> json_char c = [c]) /\
     (json_plain c = false -> exists x rest, json_char c = 92 :: x :: rest)) /\
  (forall s, Forall (fun c => c < 1114112) s ->
     json_units (flat_map json_char s) = Some (flat_map utf16 s)) /\
  (forall s, forallb is_scalar s = true ->
     json_read_string (json_string s) = Some s).
Proof.
  split; [|split; [|split; [reflexivity|split; [exact json_char_plain|split]]]].
  - unfold json_dump. apply json_object_safe, Forall_map, Forall_forall.
    intros kv _. cbn [snd]. apply json_entry_safe.
  - intros k e Hin. split; [now apply json_dump_key|].
    split; apply (json_dump_member d k e _ _ Hin); cbn [In]; auto 10.
  - exact json_units_string.
  - exact json_string_read_back.
Qed.

(** The accented title is written with escapes only, and read back
    whole. *)
Lemma json_dump_ascii_witness :
  In (lit "FREN101", accented_entry) accented_catalog /\
  forallb is_scalar accented_title = true /\
  forallb json_safe (json_dump accented_catalog) = true /\
  occurs_in
    (json_string (lit "title") ++ lit ": " ++ json_string accented_title)
    (json_dump accented_catalog) /\
  json_string accented_title
  = [34] ++ lit "Caf\u00e9 \u2014 \ud83d\udcda" ++ [34] /\
  json_read_string (json_string accented_title) = Some accented_title.
Proof.
  assert (Hin : In (lit "FREN101", accented_entry) accented_catalog)
    by (left; reflexivity).
  destruct (json_dump_ascii accented_catalog)
    as (Hsafe & Hocc & _ & _ & _ & Hback).
  split; [exact Hin|]. split; [reflexivity|]. split; [exact Hsafe|].
  split; [exact (proj1 (proj2 (Hocc _ _ Hin)))|].
  split; [reflexivity|]. exact (Hback accented_title eq_refl).
Defined.

(** ** The range handling on any string *)

Lemma split_first_part (sep : N) (s : str) :
  exists w ws, split sep s = w :: ws /\ w = take_while (fun c => negb (c =? sep)) s.
Proof.
  induction s as [|x s (w & ws & Hs & Hw)]; [exists [], []; auto|].
  cbn [split take_while]. destruct (x =? sep); cbn [negb].
  - exists [], (split sep s). auto.
  - rewrite Hs. exists (x :: w), ws. split; [reflexivity | now f_equal].
Qed.

Lemma split_second_part (sep : N) (s : str) :
  existsb (N.eqb sep) s = true ->
  exists a b,
    s = a ++ sep :: b /\ existsb (N.eqb sep) a = false /\
    nth_error (split sep s) 1
    = Some (take_while (fun c => negb (c =? sep)) b).
Proof.
  induction s as [|x s IH]; [discriminate|].
  cbn [existsb split]. rewrite (N.eqb_sym sep x).
  destruct (x =? sep) eqn:E; cbn [orb].
  - intros _. apply N.eqb_eq in E as ->. exists [], s.
    destruct (split_first_part sep s) as (w & ws & -> & ->). auto.
  - intros H. destruct (IH H) as (a & b & -> & Ha & Hn).
    exists (x :: a), b. cbn [existsb app]. rewrite (N.eqb_sym sep x), E, Ha.
    split; [reflexivity|]. split; [reflexivity|].
    destruct (split sep (a ++ sep :: b)) as [|w ws]; [discriminate|]. exact Hn.
Qed.

(** X16.  The range handling returns on every string, with or without
    digits: a string without hyphen is kept whole, and of a string with a
    hyphen the part between the first hyphen and the next one, or the end,
    is kept.  The index into the split parts is never out of range. *)
Theorem resolve_credits_total (credits : str) :
  exists kept,
    resolve_credits credits = Ret kept /\
    (existsb (N.eqb (ch "-")) credits = false -> kept = credits) /\
    (existsb (N.eqb (ch "-")) credits = true ->
     exists a b,
       credits = a ++ ch "-" :: b /\
       existsb (N.eqb (ch "-")) a = false /\
       kept = take_while (fun c => negb (c =? ch "-")) b).
Proof.
  unfold resolve_credits. change (lit "-") with [ch "-"].
  rewrite contains_char.
  destruct (existsb (N.eqb (ch "-")) credits) eqn:E.
  - destruct (split_second_part (ch "-") credits E) as (a & b & Hs & Ha & Hn).
    unfold index. rewrite Hn. eexists. split; [reflexivity|].
    split; [discriminate|]. intros _. exists a, b. auto.
  - exists credits. split; [reflexivity|]. split; [auto | discriminate].
Qed.

(** ** A blank block *)

Lemma words_blank (s : str) : forallb is_space s = true -> words s = [].
Proof.
  induction s as [|x s IH]; [reflexivity|]. cbn [forallb words].
  intros H. apply andb_true_iff in H as [Hx Hs]. rewrite Hx. now apply IH.
Qed.

Section Blank.
Variable unicode_upper : N -> list N.
Variable unicode_decimal : N -> option N.

(** X17.  A block with no text, or with whitespace only, normalises to the
    empty text and gives no record. *)
Theorem blank_block (block : str) :
  forallb is_space block = true ->
  normalize block = [] /\
  parse_course_block unicode_upper unicode_decimal block = Ret None.
Proof.
  intros H.
  assert (Hn : normalize block = []).
  { rewrite normalize_spec_eq. unfold normalize_spec.
    now rewrite (words_blank block H). }
  split; [exact Hn|].
  unfold parse_course_block, parse_course_block_body, parse_normalized.
  rewrite Hn. reflexivity.
Qed.

End Blank.

(** The hypothesis of X17 holds for a block of blanks and newlines. *)
Lemma blank_block_witness :
  forallb is_space [32; 160; 10; 9] = true /\
  parse_course_block plain_upper plain_decimal [32; 160; 10; 9] = Ret None.
Proof.
  assert (H : forallb is_space [32; 160; 10; 9] = true) by reflexivity.
  split; [exact H|].
  exact (proj2 (blank_block plain_upper plain_decimal _ H)).
Defined.

(** ** What the catalog holds *)

Lemma dict_set_forall (P : str * entry -> Prop) (k : str) (v : entry) (d : dict) :
  P (k, v) -> Forall P d -> Forall P (dict_set k v d).
Proof.
  intros Hkv Hd. induction Hd as [|[k' v'] d Hx Hd IH]; cbn [dict_set].
  - repeat constructor. exact Hkv.
  - destruct (str_eqb k' k) eqn:E.
    + apply str_eqb_eq in E as ->. constructor; assumption.
    + constructor; assumption.
Qed.

Lemma store_courses_forall (P : str * entry -> Prop) (cs : list course) :
  Forall (fun c => P (pop_key c)) cs ->
  forall all, Forall P all -> Forall P (store_courses cs all).
Proof.
  induction 1 as [|c cs Hc _ IH]; intros all Hall; [exact Hall|].
  change (store_courses (c :: cs) all)
    with (store_courses cs (dict_set (key c) (snd (pop_key c)) all)).
  apply IH. apply dict_set_forall; auto.
Qed.

Section CatalogEntries.
Variable unicode_upper : N -> list N.
Variable unicode_decimal : N -> option N.
Variable get_soup : str -> res (list str).

Lemma block_records_parsed (blocks : list str) (c : course) :
  In c (block_records unicode_upper unicode_decimal blocks) ->
  exists b, parse_course_block unicode_upper unicode_decimal b = Ret (Some c).
Proof.
  unfold block_records. rewrite in_flat_map. intros (b & _ & Hc).
  destruct (parse_course_block unicode_upper unicode_decimal b)
    as [[c'|]|e] eqn:E; try contradiction.
  destruct Hc as [<- | []]. eauto.
Qed.

Lemma scrape_department_parsed (dept : str) (c : course) :
  In c (scrape_department unicode_upper unicode_decimal get_soup dept) ->
  exists b, parse_course_block unicode_upper unicode_decimal b = Ret (Some c).
Proof.
  unfold scrape_department.
  destruct (get_soup (COURSES_URL ++ dept ++ lit "/")) as [blocks|e];
    cbn [bind try_except]; [|intros []].
  rewrite parse_blocks_records. apply block_records_parsed.
Qed.

(** X18.  Every entry of the catalog, at the end of the loop over any list
    of departments, agrees with its key: the key is the entry's prefix
    followed by its number, the prefix is the leading run of upper-case
    letters of the key, the credits are not negative and the title is
    trimmed. *)
Theorem catalog_entries_consistent (depts : list str) :
  Forall
    (fun kv =>
       fst kv = e_prefix (snd kv) ++ e_number (snd kv) /\
       e_prefix (snd kv) = take_while is_upper_AZ (fst kv) /\
       (0 <= e_credits (snd kv))%Z /\
       strip (e_title (snd kv)) = e_title (snd kv))
    (scrape_all unicode_upper unicode_decimal get_soup depts []).
Proof.
  rewrite scrape_all_flat. apply store_courses_forall; [|constructor].
  apply Forall_forall. intros c Hc. apply in_flat_map in Hc as (dept & _ & Hc).
  destruct (scrape_department_parsed dept c Hc) as [b Hb].
  open_record Hb.
  cbn [pop_key fst snd e_prefix e_number e_credits e_title].
  split; [exact Hkey|]. split; [|split].
  - rewrite Hkey. symmetry. apply take_while_app; [exact Hprup|].
    rewrite Hnumber. destruct Hnumtok as (Hd & Hdig & _).
    destruct d as [|x d]; [congruence|]. cbn [app].
    cbn [forallb] in Hdig. apply andb_true_iff in Hdig as [Hx _].
    destruct (is_upper_AZ x) eqn:E; [|reflexivity].
    rewrite (upper_not_decimal unicode_decimal x E) in Hx. discriminate.
  - apply py_int_value in Hint.
    exact (digits_value_nonneg unicode_decimal kept 0%Z _ (Z.le_refl 0) Hint).
  - rewrite Htitle. apply strip_idempotent.
Qed.

End CatalogEntries.

(** ** The record of the example block *)

Lemma example_block_parsed :
  parse_course_block plain_upper plain_decimal example_block
  = Ret (Some example_course).
Proof. vm_compute. reflexivity. Qed.

(** The hypothesis of X3 holds on the example block. *)
Lemma record_rebuilds_block_witness :
  parse_course_block plain_upper plain_decimal example_block
  = Ret (Some example_course) /\
  exists sp2 ti sp3 cr sp4 plural rest,
    normalize example_block
    = prefix example_course ++ lit " " ++ number example_course ++ lit "." ++
      sp2 ++ ti ++ lit "." ++ sp3 ++ cr ++ sp4 ++ lit "Credit" ++ plural ++
      lit "." ++ rest /\
    title example_course = strip ti /\ ti <> [] /\
    credit_field plain_decimal cr /\
    (sp2 = [] \/ sp2 = lit " ") /\
    (sp3 = [] \/ sp3 = lit " ") /\
    (sp4 = [] \/ sp4 = lit " ") /\
    (plural = [] \/ plural = lit "s").
Proof.
  exact (conj example_block_parsed
           (record_rebuilds_block plain_upper plain_decimal _ _
              example_block_parsed)).
Defined.

(** The hypothesis of X4 holds on the example block. *)
Lemma key_splits_back_witness :
  parse_course_block plain_upper plain_decimal example_block
  = Ret (Some example_course) /\
  prefix example_course = take_while is_upper_AZ (key example_course) /\
  number example_course = drop_while is_upper_AZ (key example_course).
Proof.
  exact (conj example_block_parsed
           (key_splits_back plain_upper plain_decimal _ _
              example_block_parsed)).
Defined.

(** The hypothesis of X5 holds on the example block. *)
Lemma title_is_trimmed_part_witness :
  parse_course_block plain_upper plain_decimal example_block
  = Ret (Some example_course) /\
  strip (title example_course) = title example_course /\
  forallb not_newline (title example_course) = true /\
  occurs_in (title example_course) (normalize example_block).
Proof.
  exact (conj example_block_parsed
           (title_is_trimmed_part plain_upper plain_decimal _ _
              example_block_parsed)).
Defined.

(** The hypothesis of X6 holds on the example block. *)
Lemma description_is_trimmed_part_witness :
  parse_course_block plain_upper plain_decimal example_block
  = Ret (Some example_course) /\
  occurs_in (description example_course) (normalize example_block) /\
  strip (description example_course) = description example_course /\
  single_spaced (description example_course) = true.
Proof.
  exact (conj example_block_parsed
           (description_is_trimmed_part plain_upper plain_decimal _ _
              example_block_parsed)).
Defined.

(** The hypothesis of X7 holds on the example block. *)
Lemma credits_nonnegative_witness :
  parse_course_block plain_upper plain_decimal example_block
  = Ret (Some example_course) /\
  (0 <= credits example_course)%Z.
Proof.
  exact (conj example_block_parsed
           (credits_nonnegative plain_upper plain_decimal _ _
              example_block_parsed)).
Defined.
